(** * claude-warden: the shell-command parser and the built-in rule table

    A shallow embedding of the parser module ([src/unnamed/part_001]: the
    walk over the tree that the [bash-parser] grammar returns) and of the
    built-in configuration ([src/unnamed/part_000]), with the properties
    the specification states about them.

    Conventions.
    - A JavaScript string is a sequence of UTF-16 code units.  It is embedded
      as a [string]; a character stands for the code unit with the same
      number, so the embedding covers the strings whose code units are below
      256.  The regular-expression classes are cut to that range: [\s] is
      TAB, LF, VT, FF, CR, SPACE and NBSP; [\w] is [[A-Za-z0-9_]]; the line
      terminators that [.] refuses are LF and CR.
    - [bash-parser] is a third-party grammar.  It is a parameter
      [parse : string -> option ScriptNode] of the development; [None] stands
      for a thrown exception.
    - [parseCommand] re-enters itself through [walkNode].  The nesting depth
      of these re-entries is bounded by a [fuel] argument; [None] means that
      the bound was reached, never that the code returned.
    - The module [./types] and the evaluator are not among the sources.  The
      configuration records follow the object literal of [DEFAULT_CONFIG]
      and the data model of the specification; the evaluator follows
      sections 4.2 and 4.3 of the specification. *)

From Stdlib Require Import String Ascii List Arith Bool Lia.
From Equations Require Import Equations.
From Equations.Prop Require Import Logic.
Import ListNotations.
Open Scope list_scope.
Open Scope string_scope.
Open Scope nat_scope.

(** ** Character classes of the regular expressions *)

Module Chars.

Definition code (c : ascii) : nat := nat_of_ascii c.

Definition between (lo hi : nat) (c : ascii) : bool :=
  (lo <=? code c) && (code c <=? hi).

(** [\s] *)
Definition isSpace (c : ascii) : bool :=
  between 9 13 c || (code c =? 32) || (code c =? 160).

(** [\w] *)
Definition isWordChar (c : ascii) : bool :=
  between 48 57 c || between 65 90 c || between 97 122 c || (code c =? 95).

(** the characters [.] does not match *)
Definition isLineTerminator (c : ascii) : bool :=
  (code c =? 10) || (code c =? 13).

(** a single or a double quote, the class of the optional quote around the marker *)
Definition isQuote (c : ascii) : bool :=
  (code c =? 39) || (code c =? 34).

Definition LF : ascii := ascii_of_nat 10.
Definition isLF (c : ascii) : bool := code c =? 10.
Definition isDollar (c : ascii) : bool := Ascii.eqb c "$".
Definition isSlash (c : ascii) : bool := Ascii.eqb c "/".

End Chars.
Import Chars.

(** ** String primitives of the host language *)

Module Str.

Fixpoint forallb (p : ascii -> bool) (s : string) : bool :=
  match s with
  | EmptyString => true
  | String c r => p c && forallb p r
  end.

Fixpoint existsb (p : ascii -> bool) (s : string) : bool :=
  match s with
  | EmptyString => false
  | String c r => p c || existsb p r
  end.

Fixpoint count (p : ascii -> bool) (s : string) : nat :=
  match s with
  | EmptyString => 0
  | String c r => (if p c then 1 else 0) + count p r
  end.

(** greedy [p*]: what is left after the longest run of [p] *)
Fixpoint dropWhile (p : ascii -> bool) (s : string) : string :=
  match s with
  | EmptyString => EmptyString
  | String c r => if p c then dropWhile p r else s
  end.

(** the longest run of [p] at the head *)
Fixpoint takeWhile (p : ascii -> bool) (s : string) : string :=
  match s with
  | EmptyString => EmptyString
  | String c r => if p c then String c (takeWhile p r) else EmptyString
  end.

(** [p?]: drop one character when it is in the class *)
Definition dropOpt (p : ascii -> bool) (s : string) : string :=
  match s with
  | String c r => if p c then r else s
  | EmptyString => s
  end.

(** [s] with the literal [lit] taken from its head, when it starts with it *)
Fixpoint stripPrefix (lit s : string) : option string :=
  match lit, s with
  | EmptyString, _ => Some s
  | String a lit', String b s' =>
      if Ascii.eqb a b then stripPrefix lit' s' else None
  | String _ _, EmptyString => None
  end.

Definition isEmpty (s : string) : bool :=
  match s with EmptyString => true | _ => false end.

(** [String.prototype.trimStart] / [trimEnd] / [trim] *)
Definition trimStart (s : string) : string := dropWhile isSpace s.

Fixpoint trimEnd (s : string) : string :=
  match s with
  | EmptyString => EmptyString
  | String c r =>
      let r' := trimEnd r in
      if isEmpty r' && isSpace c then EmptyString else String c r'
  end.

Definition trim (s : string) : string := trimEnd (trimStart s).

(** [s.split('\n')[0]] *)
Definition firstLine (s : string) : string :=
  takeWhile (fun c => negb (isLF c)) s.

(** [parts.join(' ')] *)
Fixpoint join (sep : string) (parts : list string) : string :=
  match parts with
  | [] => EmptyString
  | [p] => p
  | p :: rest => p ++ sep ++ join sep rest
  end.

(** [s.includes('/')] *)
Definition includesSlash (s : string) : bool := existsb isSlash s.

Fixpoint rev (s : string) : string :=
  match s with
  | EmptyString => EmptyString
  | String c r => rev r ++ String c EmptyString
  end.

End Str.

(** ** [path.basename] (POSIX flavour of the Node.js library)

    Node scans the path from its end: trailing slashes are skipped, the
    component ends at the last character that is not a slash and starts
    after the slash before it.  A path made of slashes only, or the empty
    path, gives the empty string. *)
Definition basename (path : string) : string :=
  Str.rev (Str.takeWhile (fun c => negb (isSlash c))
            (Str.dropWhile isSlash (Str.rev path))).

(** ** The regular expressions of the parser

    Each expression is written out as the deterministic scan it denotes.
    None of them needs backtracking: wherever a greedy piece is followed by
    another piece, the two character classes are disjoint, so giving back
    characters can never make a failed match succeed.  The only lazy piece,
    the heredoc body, is followed by a fixed closing sequence and stops at
    its first occurrence. *)

Module Re.

Definition isDash (c : ascii) : bool := Ascii.eqb c "-".

Definition startsWith (p : ascii -> bool) (s : string) : bool :=
  match s with
  | String c _ => p c
  | EmptyString => false
  end.

(** the common head [<<-?\s*q?] (q a quote): what follows it *)
Definition heredocOperator (s : string) : option string :=
  match Str.stripPrefix "<<" s with
  | Some r =>
      Some (Str.dropOpt isQuote (Str.dropWhile isSpace (Str.dropOpt isDash r)))
  | None => None
  end.

(** [HEREDOC_REGEX] matched at the head of [s].  After the operator one
    [\w] is enough: the rest of [\w+] and the optional quote match the
    empty string as well. *)
Definition heredocAt (s : string) : bool :=
  match heredocOperator s with
  | Some r => startsWith isWordChar r
  | None => false
  end.

(** [HEREDOC_REGEX.test(s)]: a match at some position *)
Fixpoint HEREDOC_REGEX_test (s : string) : bool :=
  heredocAt s ||
  match s with
  | EmptyString => false
  | String _ r => HEREDOC_REGEX_test r
  end.

(** the expression of [firstLine.replace(..., '')] matched at the head of
    [s]: the operator, a marker, and then [.*$], which has to reach the end
    of the string and so refuses a line terminator anywhere after the
    operator. *)
Definition heredocSuffixAt (s : string) : bool :=
  match heredocOperator s with
  | Some r => startsWith isWordChar r && negb (Str.existsb isLineTerminator r)
  | None => false
  end.

(** [firstLine.replace(/<<-?\s*q?\w+q?.*$/, '')]: the first match runs to the
    end of the string, so the result is what stands before it. *)
Fixpoint stripHeredocSuffix (s : string) : string :=
  if heredocSuffixAt s then EmptyString
  else match s with
       | EmptyString => EmptyString
       | String c r => String c (stripHeredocSuffix r)
       end.

(** the closing sequence [\n\1\s*\)] at the head of [s]: what follows it *)
Definition closeAt (marker s : string) : option string :=
  match Str.stripPrefix (String LF marker) s with
  | Some r =>
      match Str.dropWhile isSpace r with
      | String c r' => if Ascii.eqb c ")" then Some r' else None
      | EmptyString => None
      end
  | None => None
  end.

(** the lazy body [[\s\S]*?] followed by the closing sequence: the body
    grows one character at a time until the closing sequence matches *)
Fixpoint findClose (marker s : string) : option string :=
  match closeAt marker s with
  | Some r => Some r
  | None =>
      match s with
      | EmptyString => None
      | String _ r => findClose marker r
      end
  end.

(** the expression of [preprocessCatHeredocs] matched at the head of [s]:
    [\$\(cat\s+<<-?\s*q?(\w+)q?\n([\s\S]*?)\n\1\s*\)]; the result is what
    follows the match *)
Definition catHeredocAt (s : string) : option string :=
  match Str.stripPrefix "$(cat" s with
  | Some r1 =>
      if startsWith isSpace r1 then
        match heredocOperator (Str.dropWhile isSpace r1) with
        | Some r2 =>
            let marker := Str.takeWhile isWordChar r2 in
            if Str.isEmpty marker then None
            else
              match Str.dropOpt isQuote (Str.dropWhile isWordChar r2) with
              | String c body =>
                  if isLF c then findClose marker body else None
              | EmptyString => None
              end
        | None => None
        end
      else None
  | None => None
  end.

End Re.

(** *** What a scan leaves is a suffix of what it was given *)

(** [Suffix n r s]: [r] is [s] without its first characters, at least [n]
    of them *)
Definition Suffix (n : nat) (r s : string) : Prop :=
  exists p, s = p ++ r /\ n <= String.length p.

Lemma append_assoc (a b c : string) : (a ++ b) ++ c = a ++ (b ++ c).
Proof. induction a as [|x a IH]; simpl; [reflexivity | now rewrite IH]. Qed.

Lemma append_nil_r (a : string) : a ++ EmptyString = a.
Proof. induction a as [|x a IH]; simpl; [reflexivity | now rewrite IH]. Qed.

Lemma length_append (a b : string) :
  String.length (a ++ b) = String.length a + String.length b.
Proof. induction a as [|x a IH]; simpl; [reflexivity | now rewrite IH]. Qed.

Lemma count_append p (a b : string) :
  Str.count p (a ++ b) = Str.count p a + Str.count p b.
Proof. induction a as [|x a IH]; simpl; [reflexivity | rewrite IH; lia]. Qed.

Lemma Suffix_refl s : Suffix 0 s s.
Proof. exists EmptyString; split; [reflexivity | simpl; lia]. Qed.

Lemma Suffix_trans n m r s t :
  Suffix n r s -> Suffix m s t -> Suffix (n + m) r t.
Proof.
  intros (p & -> & Hp) (q & -> & Hq).
  exists (q ++ p); split; [now rewrite append_assoc|].
  rewrite length_append; lia.
Qed.

Lemma Suffix_weaken n m r s : Suffix n r s -> m <= n -> Suffix m r s.
Proof. intros (p & E & Hp) H; exists p; split; [assumption | lia]. Qed.

Lemma Suffix_cons n c r s : Suffix n r s -> Suffix (S n) r (String c s).
Proof.
  intros (p & -> & Hp). exists (String c p); split; [reflexivity | simpl; lia].
Qed.

Lemma Suffix_length n r s :
  Suffix n r s -> String.length r + n <= String.length s.
Proof. intros (p & -> & Hp). rewrite length_append; lia. Qed.

Lemma Suffix_count n q r s : Suffix n r s -> Str.count q r <= Str.count q s.
Proof. intros (p & -> & Hp). rewrite count_append; lia. Qed.

Lemma takeWhile_dropWhile p s : Str.takeWhile p s ++ Str.dropWhile p s = s.
Proof.
  induction s as [|c r IH]; simpl; [reflexivity|].
  destruct (p c); simpl; [now rewrite IH | reflexivity].
Qed.

Lemma dropWhile_Suffix_run p s :
  Suffix (String.length (Str.takeWhile p s)) (Str.dropWhile p s) s.
Proof.
  exists (Str.takeWhile p s); split; [now rewrite takeWhile_dropWhile | lia].
Qed.

Lemma dropWhile_Suffix p s : Suffix 0 (Str.dropWhile p s) s.
Proof. eapply Suffix_weaken; [apply dropWhile_Suffix_run | lia]. Qed.

Lemma dropOpt_Suffix p s : Suffix 0 (Str.dropOpt p s) s.
Proof.
  destruct s as [|c r]; simpl; [apply Suffix_refl|].
  destruct (p c); [|apply Suffix_refl].
  apply Suffix_weaken with (n := 1); [|lia].
  apply Suffix_cons, Suffix_refl.
Qed.

Lemma stripPrefix_append lit s r :
  Str.stripPrefix lit s = Some r -> s = lit ++ r.
Proof.
  revert s; induction lit as [|a lit IH]; intros s H; simpl in *.
  - now inversion H.
  - destruct s as [|b s]; [discriminate|].
    destruct (Ascii.eqb a b) eqn:E; [|discriminate].
    apply Ascii.eqb_eq in E; subst b. now rewrite (IH _ H).
Qed.

Lemma stripPrefix_Suffix lit s r :
  Str.stripPrefix lit s = Some r -> Suffix (String.length lit) r s.
Proof.
  intros H; exists lit; split; [now apply stripPrefix_append | lia].
Qed.

Lemma heredocOperator_Suffix s r :
  Re.heredocOperator s = Some r -> Suffix 2 r s.
Proof.
  unfold Re.heredocOperator.
  destruct (Str.stripPrefix "<<" s) as [r0|] eqn:E; [|discriminate].
  intros H; inversion H; subst; clear H.
  apply stripPrefix_Suffix in E; simpl in E.
  eapply Suffix_weaken with (n := 0 + (0 + (0 + 2))); [|lia].
  eapply Suffix_trans; [apply dropOpt_Suffix|].
  eapply Suffix_trans; [apply dropWhile_Suffix|].
  eapply Suffix_trans; [apply dropOpt_Suffix|exact E].
Qed.

Lemma closeAt_Suffix marker s r :
  Re.closeAt marker s = Some r -> Suffix (String.length marker + 2) r s.
Proof.
  unfold Re.closeAt.
  destruct (Str.stripPrefix (String LF marker) s) as [r0|] eqn:E; [|discriminate].
  apply stripPrefix_Suffix in E; simpl in E.
  pose proof (dropWhile_Suffix isSpace r0) as D.
  destruct (Str.dropWhile isSpace r0) as [|c r'] eqn:E'; [discriminate|].
  destruct (Ascii.eqb c ")"); [|discriminate].
  intros H; inversion H; subst.
  eapply Suffix_weaken with (n := 1 + (0 + S (String.length marker))); [|lia].
  eapply Suffix_trans; [apply Suffix_cons, Suffix_refl|].
  eapply Suffix_trans; [exact D | exact E].
Qed.

Lemma findClose_Suffix marker s r :
  Re.findClose marker s = Some r -> Suffix (String.length marker + 2) r s.
Proof.
  induction s as [|c s IH]; cbn [Re.findClose].
  - destruct (Re.closeAt marker EmptyString) eqn:E; [|discriminate].
    intros H; inversion H; subst. now apply closeAt_Suffix.
  - destruct (Re.closeAt marker (String c s)) eqn:E.
    + intros H; inversion H; subst. now apply closeAt_Suffix.
    + intros H. apply IH in H.
      eapply Suffix_weaken; [apply Suffix_cons, H | lia].
Qed.

Lemma isEmpty_false_length s : Str.isEmpty s = false -> 1 <= String.length s.
Proof. destruct s; simpl; [discriminate | lia]. Qed.

(** a match of the cat-heredoc expression starts with a dollar sign and has
    at least 13 characters: [$(cat], a space, [<<], a marker, a line feed,
    and the closing sequence with the marker again *)
Lemma catHeredocAt_Suffix s r :
  Re.catHeredocAt s = Some r ->
  exists s', s = String "$" s' /\ Suffix 12 r s'.
Proof.
  unfold Re.catHeredocAt.
  destruct (Str.stripPrefix "$(cat" s) as [r1|] eqn:E1; [|discriminate].
  pose proof (stripPrefix_append _ _ _ E1) as Es. simpl in Es.
  destruct (Re.startsWith isSpace r1) eqn:Esp; [|discriminate].
  destruct (Re.heredocOperator (Str.dropWhile isSpace r1)) as [r2|] eqn:E2;
    [|discriminate].
  destruct (Str.isEmpty (Str.takeWhile isWordChar r2)) eqn:Em; [discriminate|].
  destruct (Str.dropOpt isQuote (Str.dropWhile isWordChar r2))
    as [|c body] eqn:E3; [discriminate|].
  destruct (isLF c); [|discriminate].
  intros H. apply findClose_Suffix in H.
  apply isEmpty_false_length in Em.
  exists ("(cat" ++ r1); split; [exact Es|].
  (* r1 starts with a space, and what follows the spaces holds the operator *)
  assert (S1 : Suffix 1 (Str.dropWhile isSpace r1) r1).
  { destruct r1 as [|x r1]; simpl in *; [discriminate|].
    rewrite Esp. apply Suffix_cons with (n := 0), dropWhile_Suffix. }
  apply heredocOperator_Suffix in E2.
  assert (S3 : Suffix (1 + String.length (Str.takeWhile isWordChar r2)) body r2).
  { pose proof (dropOpt_Suffix isQuote (Str.dropWhile isWordChar r2)) as A.
    rewrite E3 in A.
    pose proof (dropWhile_Suffix_run isWordChar r2) as B.
    eapply Suffix_weaken
      with (n := 1 + (0 + String.length (Str.takeWhile isWordChar r2))); [|lia].
    eapply Suffix_trans; [apply Suffix_cons, Suffix_refl|].
    eapply Suffix_trans; [exact A | exact B]. }
  assert (S4 : Suffix 4 r1 ("(cat" ++ r1)).
  { exists "(cat"; split; [reflexivity | simpl; lia]. }
  eapply Suffix_weaken
    with (n := (String.length (Str.takeWhile isWordChar r2) + 2)
               + ((1 + String.length (Str.takeWhile isWordChar r2))
                  + (2 + (1 + 4)))); [|lia].
  eapply Suffix_trans; [exact H|].
  eapply Suffix_trans; [exact S3|].
  eapply Suffix_trans; [exact E2|].
  eapply Suffix_trans; [exact S1 | exact S4].
Qed.

Lemma catHeredocAt_length s r :
  Re.catHeredocAt s = Some r -> String.length r < String.length s.
Proof.
  intros H. apply catHeredocAt_Suffix in H as (s' & -> & S).
  apply Suffix_length in S. simpl. lia.
Qed.

(** ** [preprocessCatHeredocs]

    [input.replace(regex, '__HEREDOC_TEXT__')] with the [g] flag: the
    string is scanned from the left; where the expression matches, the
    match is replaced and the scan goes on after it. *)

Definition HEREDOC_PLACEHOLDER : string := "__HEREDOC_TEXT__".

Equations? preprocessCatHeredocs (input : string) : string
  by wf (String.length input) lt :=
  preprocessCatHeredocs input with inspect (Re.catHeredocAt input) := {
    | exist _ (Some rest) E =>
        HEREDOC_PLACEHOLDER ++ preprocessCatHeredocs rest
    | exist _ None _ with input := {
        | EmptyString => EmptyString
        | String c r => String c (preprocessCatHeredocs r) } }.
Proof.
  now apply catHeredocAt_length.
Qed.

(** *** The measure that the rewriting cannot increase

    A replaced match has at least 13 characters, one of them the dollar
    sign it starts with; the placeholder has 16 characters and no dollar
    sign.  So the rewriting can add up to three characters for each match,
    and removes at least one dollar sign for each. *)

Definition dollars (s : string) : nat := Str.count isDollar s.

Definition weight (s : string) : nat := String.length s + 3 * dollars s.

(** ** The data model: [ParsedCommand], [ParseResult], [WalkResult] *)

Record ParsedCommand := {
  command : string;
  args : list string;
  envPrefixes : list string;
  raw : string
}.

Record ParseResult := {
  commands : list ParsedCommand;
  hasSubshell : bool;
  subshellCommands : list string;
  parseError : bool
}.

(** the accumulator that [walkNode] mutates; here it is passed along *)
Record WalkResult := {
  wr_commands : list ParsedCommand;
  wr_hasSubshell : bool;
  wr_subshellCommands : list string
}.

Definition emptyWalk : WalkResult :=
  {| wr_commands := []; wr_hasSubshell := false; wr_subshellCommands := [] |}.

(** ** The AST of the grammar, as far as the parser reads it

    A node is an object with a [type] string.  The node types that the
    parser reads fields of have a constructor each; every other node
    ([If], [For], [Redirect], [dless], [CompoundList], ...) is an [Other]
    with its type and the child nodes that a scan over its fields meets
    (object fields that carry a [type], and the elements of array fields),
    the fields [expansion] and [commandAST] left out.  An absent [prefix] or
    [suffix] array is the empty list: the code does nothing for either. *)

Inductive ExpansionType :=
  CommandExpansion | ParameterExpansion | ArithmeticExpansion.

Record ExpansionNode := {
  exp_type : ExpansionType;
  exp_command : option string
}.

Record WordNode := {
  text : string;
  expansion : option (list ExpansionNode)
}.

Inductive LogicalOp := op_and | op_or.

#[warnings="-register-all"] Inductive AstNode : Type :=
| Command (name : option WordNode) (prefix suffix : list AstNode)
| Word (w : WordNode)
| AssignmentWord (assigned : string)
| Pipeline (cmds : list AstNode)
| LogicalExpression (op : LogicalOp) (lhs rhs : AstNode)
| Subshell (list : option (list AstNode))
| Other (type : string) (children : list AstNode).

Record ScriptNode := Script { script_commands : list AstNode }.

Section AstNode_induction.
Variable P : AstNode -> Prop.
Hypothesis P_Command : forall name prefix suffix,
    Forall P prefix -> Forall P suffix -> P (Command name prefix suffix).
Hypothesis P_Word : forall w, P (Word w).
Hypothesis P_AssignmentWord : forall t, P (AssignmentWord t).
Hypothesis P_Pipeline : forall cmds, Forall P cmds -> P (Pipeline cmds).
Hypothesis P_LogicalExpression : forall op l r,
    P l -> P r -> P (LogicalExpression op l r).
Hypothesis P_Subshell_some : forall cmds,
    Forall P cmds -> P (Subshell (Some cmds)).
Hypothesis P_Subshell_none : P (Subshell None).
Hypothesis P_Other : forall t children,
    Forall P children -> P (Other t children).

Fixpoint AstNode_nested_ind (n : AstNode) : P n :=
  let all := fix all (l : list AstNode) : Forall P l :=
    match l with
    | [] => Forall_nil P
    | x :: r => Forall_cons x (AstNode_nested_ind x) (all r)
    end in
  match n with
  | Command name prefix suffix =>
      P_Command name prefix suffix (all prefix) (all suffix)
  | Word w => P_Word w
  | AssignmentWord t => P_AssignmentWord t
  | Pipeline cmds => P_Pipeline cmds (all cmds)
  | LogicalExpression op l r =>
      P_LogicalExpression op l r (AstNode_nested_ind l) (AstNode_nested_ind r)
  | Subshell (Some cmds) => P_Subshell_some cmds (all cmds)
  | Subshell None => P_Subshell_none
  | Other t children => P_Other t children (all children)
  end.
End AstNode_induction.

(** ** [convertCommand] *)

Definition assignmentTexts (prefix : list AstNode) : list string :=
  flat_map (fun p => match p with AssignmentWord t => [t] | _ => [] end) prefix.

Definition wordTexts (suffix : list AstNode) : list string :=
  flat_map (fun s => match s with Word w => [text w] | _ => [] end) suffix.

Definition convertCommand (name : option WordNode) (prefix suffix : list AstNode)
  : option ParsedCommand :=
  match name with
  | None => None
  | Some n =>
      let command :=
        if Str.includesSlash (text n) then basename (text n) else text n in
      let envPrefixes := assignmentTexts prefix in
      let args := wordTexts suffix in
      let rawParts := (envPrefixes ++ [text n] ++ args)%list in
      Some {| command := command; args := args; envPrefixes := envPrefixes;
              raw := Str.join " " rawParts |}
  end.

(** ** [collectCommandExpansions] *)

(** [exp.type === 'CommandExpansion' && exp.command]: the empty string is
    falsy, as an absent field is *)
Definition expansionCommand (e : ExpansionNode) : list string :=
  match exp_type e, exp_command e with
  | CommandExpansion, Some c => if Str.isEmpty c then [] else [c]
  | _, _ => []
  end.

Definition wordExpansions (w : WordNode) : list string :=
  match expansion w with
  | Some exps => flat_map expansionCommand exps
  | None => []
  end.

Definition collectCommandExpansions (node : AstNode) : list string :=
  match node with
  | Command name _ suffix =>
      (flat_map (fun s => match s with Word w => wordExpansions w | _ => [] end)
                suffix
       ++ match name with Some w => wordExpansions w | None => [] end)%list
  | _ => []
  end.

(** ** [walkNode] *)

Definition isShell (c : string) : bool :=
  String.eqb c "sh" || String.eqb c "bash" || String.eqb c "zsh".

(** the test of the [sh -c] unwrap *)
Definition isShellWrapper (parsed : ParsedCommand) : bool :=
  isShell (command parsed)
  && (2 <=? List.length (args parsed))
  && String.eqb (nth 0 (args parsed) EmptyString) "-c".

Definition isComplexType (t : string) : bool :=
  List.existsb (String.eqb t) ["If"; "For"; "While"; "Until"; "Case"; "Function"].

Definition taint (result : WalkResult) : WalkResult :=
  {| wr_commands := wr_commands result;
     wr_hasSubshell := true;
     wr_subshellCommands := wr_subshellCommands result |}.

Definition pushExpansions (expansions : list string) (result : WalkResult)
  : WalkResult :=
  if 0 <? List.length expansions then
    {| wr_commands := wr_commands result;
       wr_hasSubshell := true;
       wr_subshellCommands := (wr_subshellCommands result ++ expansions)%list |}
  else result.

Definition pushCommand (parsed : ParsedCommand) (result : WalkResult)
  : WalkResult :=
  {| wr_commands := (wr_commands result ++ [parsed])%list;
     wr_hasSubshell := wr_hasSubshell result;
     wr_subshellCommands := wr_subshellCommands result |}.

Definition pushInner (inner : ParseResult) (result : WalkResult) : WalkResult :=
  {| wr_commands := (wr_commands result ++ commands inner)%list;
     wr_hasSubshell := if hasSubshell inner then true else wr_hasSubshell result;
     wr_subshellCommands :=
       (wr_subshellCommands result ++ subshellCommands inner)%list |}.

(** [for (const cmd of nodes) walk(cmd, result)], stopping when the depth
    bound is reached *)
Definition walkEach (walk : AstNode -> WalkResult -> option WalkResult)
  : list AstNode -> WalkResult -> option WalkResult :=
  fix each (nodes : list AstNode) (result : WalkResult) : option WalkResult :=
    match nodes with
    | [] => Some result
    | n :: rest =>
        match walk n result with
        | Some result' => each rest result'
        | None => None
        end
    end.

Section Walk.
(** [parseCommand], one level of re-entry deeper *)
Variable reenter : string -> option ParseResult.

Fixpoint walkNode (node : AstNode) (result : WalkResult) {struct node}
  : option WalkResult :=
  match node with
  | Command name prefix suffix =>
      let result := pushExpansions (collectCommandExpansions node) result in
      match convertCommand name prefix suffix with
      | None => Some result
      | Some parsed =>
          if isShellWrapper parsed then
            match reenter (nth 1 (args parsed) EmptyString) with
            | Some innerResult =>
                if parseError innerResult
                then Some (pushCommand parsed result)
                else Some (pushInner innerResult result)
            | None => None
            end
          else Some (pushCommand parsed result)
      end
  | Pipeline cmds => walkEach walkNode cmds result
  | LogicalExpression _ lhs rhs =>
      match walkNode lhs result with
      | Some result' => walkNode rhs result'
      | None => None
      end
  | Subshell list =>
      match list with
      | Some cmds => walkEach walkNode cmds (taint result)
      | None => Some (taint result)
      end
  | Other type _ =>
      if isComplexType type then Some (taint result) else Some result
  | Word _ | AssignmentWord _ => Some result
  end.

Definition walkNodes : list AstNode -> WalkResult -> option WalkResult :=
  walkEach walkNode.
End Walk.

(** ** [hasHeredocRedirect] and [astHasHeredoc] *)

Definition hasHeredocRedirect (suffix : list AstNode) : bool :=
  List.existsb
    (fun s => match s with
              | Other t _ => String.eqb t "dless" || String.eqb t "dlessdash"
              | _ => false
              end)
    suffix.

(** the inner function [check]: a [Command] is tested, and the scan goes on
    into every child except the expansions; a [Word] has no other child *)
Fixpoint check (node : AstNode) : bool :=
  match node with
  | Command _ prefix suffix =>
      hasHeredocRedirect suffix
      || List.existsb check prefix || List.existsb check suffix
  | Word _ | AssignmentWord _ => false
  | Pipeline cmds => List.existsb check cmds
  | LogicalExpression _ lhs rhs => check lhs || check rhs
  | Subshell (Some cmds) => List.existsb check cmds
  | Subshell None => false
  | Other _ children => List.existsb check children
  end.

Definition astHasHeredoc (ast : ScriptNode) : bool :=
  List.existsb check (script_commands ast).

(** ** [parseCommand] *)

Definition isBlank (input : string) : bool := Str.isEmpty (Str.trim input).

(** [firstLine.replace(...).trim()] of [input.split('\n')[0]] *)
Definition heredocCmdPart (input : string) : string :=
  Str.trim (Re.stripHeredocSuffix (Str.firstLine input)).

Definition mkResult (cs : list ParsedCommand) (sub : bool) (subs : list string)
  (err : bool) : ParseResult :=
  {| commands := cs; hasSubshell := sub; subshellCommands := subs;
     parseError := err |}.

Section Parser.
(** the grammar: [None] is a thrown exception *)
Variable parse : string -> option ScriptNode.

(** the body of the function once [input] has been reassigned to the
    preprocessed text *)
Definition parsePreprocessed (reenter : string -> option ParseResult)
  (input : string) : option ParseResult :=
  match parse input with
  | Some ast =>
      if astHasHeredoc ast then
        let cmdPart := heredocCmdPart input in
        if Str.isEmpty cmdPart then Some (mkResult [] false [] true)
        else
          match parse cmdPart with
          | Some cmdAst =>
              match walkNodes reenter (script_commands cmdAst) emptyWalk with
              | Some result =>
                  Some (mkResult (wr_commands result) true
                                 (wr_subshellCommands result) false)
              | None => None
              end
          | None => Some (mkResult [] true [] true)
          end
      else
        match walkNodes reenter (script_commands ast) emptyWalk with
        | Some result =>
            Some (mkResult (wr_commands result) (wr_hasSubshell result)
                           (wr_subshellCommands result) false)
        | None => None
        end
  | None =>
      if Re.HEREDOC_REGEX_test input then
        let cmdPart := heredocCmdPart input in
        if Str.isEmpty cmdPart then Some (mkResult [] true [] true)
        else
          match parse cmdPart with
          | Some ast =>
              match walkNodes reenter (script_commands ast) emptyWalk with
              | Some result =>
                  Some (mkResult (wr_commands result) true
                                 (wr_subshellCommands result) false)
              | None => None
              end
          | None => Some (mkResult [] true [] true)
          end
      else Some (mkResult [] false [] true)
  end.

Fixpoint parseCommand (fuel : nat) (input : string) : option ParseResult :=
  match fuel with
  | 0 => None
  | S fuel' =>
      if isBlank input then Some (mkResult [] false [] false)
      else parsePreprocessed (parseCommand fuel') (preprocessCatHeredocs input)
  end.
End Parser.

(** ** A table grammar for the worked inputs

    A grammar given by a table: for a handful of inputs, a tree of the
    shape that the node interfaces of the parser describe; every other
    input is refused, as the grammar refuses an input it cannot read. *)

Module Sample.

Definition plain (t : string) : WordNode :=
  {| text := t; expansion := None |}.

Definition substituted (t inner : string) : WordNode :=
  {| text := t;
     expansion := Some [ {| exp_type := CommandExpansion;
                            exp_command := Some inner |} ] |}.

Definition simple (name : string) (arguments : list string) : AstNode :=
  Command (Some (plain name)) [] (map (fun a => Word (plain a)) arguments).

Definition nl : string := String LF EmptyString.

Definition in_ls : string := "ls -la".
Definition in_sh_ls : string := "sh -c 'ls -la'".
Definition in_bash_bad : string := "bash -c 'echo ('".
Definition in_echo_sub : string := "echo $(whoami)".
Definition in_if_sub : string := "if true; then echo $(whoami); fi".
Definition in_env_path : string := "FOO=1 /usr/bin/ls -l /tmp".
Definition in_heredoc : string := "cat <<EOF" ++ nl ++ "hi" ++ nl ++ "EOF".
Definition in_heredoc_line2 : string := nl ++ in_heredoc.
Definition in_gh : string :=
  "gh pr create --body '$(cat <<EOF" ++ nl ++ "hello" ++ nl ++ "EOF" ++ nl ++ ")'".
Definition in_gh_rewritten : string := "gh pr create --body '__HEREDOC_TEXT__'".

Definition t_ls : ScriptNode := Script [simple "ls" ["-la"]].
Definition t_sh_ls : ScriptNode := Script [simple "sh" ["-c"; "ls -la"]].
Definition t_bash_bad : ScriptNode := Script [simple "bash" ["-c"; "echo ("]].
Definition t_echo_sub : ScriptNode :=
  Script [Command (Some (plain "echo")) []
                  [Word (substituted "$(whoami)" "whoami")]].
Definition t_if_sub : ScriptNode :=
  Script [Other "If"
            [Other "CompoundList" [simple "true" []];
             Other "CompoundList"
               [Command (Some (plain "echo")) []
                        [Word (substituted "$(whoami)" "whoami")]]]].
Definition t_env_path : ScriptNode :=
  Script [Command (Some (plain "/usr/bin/ls")) [AssignmentWord "FOO=1"]
                  [Word (plain "-l"); Word (plain "/tmp")]].
(** the heredoc body lines come back as commands of their own *)
Definition t_heredoc : ScriptNode :=
  Script [Command (Some (plain "cat")) []
                  [Other "dless" []; Word (plain "EOF")];
          simple "hi" []; simple "EOF" []].
Definition t_cat : ScriptNode := Script [simple "cat" []].
Definition t_gh : ScriptNode :=
  Script [simple "gh" ["pr"; "create"; "--body"; "__HEREDOC_TEXT__"]].

Definition table : list (string * ScriptNode) :=
  [ (in_ls, t_ls); (in_sh_ls, t_sh_ls); (in_bash_bad, t_bash_bad);
    (in_echo_sub, t_echo_sub); (in_if_sub, t_if_sub);
    (in_env_path, t_env_path); (in_heredoc, t_heredoc);
    (in_heredoc_line2, t_heredoc); ("cat", t_cat);
    (in_gh_rewritten, t_gh) ].

Fixpoint lookup (entries : list (string * ScriptNode)) (input : string)
  : option ScriptNode :=
  match entries with
  | [] => None
  | (k, v) :: rest => if String.eqb k input then Some v else lookup rest input
  end.

Definition grammar (input : string) : option ScriptNode := lookup table input.

End Sample.

(** ** What is asked of the grammar for termination *)

(** the texts of the argument words of every command node of a tree *)
Fixpoint argTexts (node : AstNode) : list string :=
  match node with
  | Command _ prefix suffix =>
      (wordTexts suffix ++ flat_map argTexts prefix ++ flat_map argTexts suffix)%list
  | Word _ | AssignmentWord _ => []
  | Pipeline cmds => flat_map argTexts cmds
  | LogicalExpression _ lhs rhs => (argTexts lhs ++ argTexts rhs)%list
  | Subshell (Some cmds) => flat_map argTexts cmds
  | Subshell None => []
  | Other _ children => flat_map argTexts children
  end.

Definition scriptArgTexts (ast : ScriptNode) : list string :=
  flat_map argTexts (script_commands ast).

(** every argument word is strictly shorter than the text that was parsed
    and holds no more dollar signs than it, as a word does that is cut out
    of the text, quotes and escapes removed *)
Definition ArgsShrink (parse : string -> option ScriptNode) : Prop :=
  forall s ast w,
    parse s = Some ast -> In w (scriptArgTexts ast) ->
    String.length w < String.length s /\ dollars w <= dollars s.

(** *** A re-entry on a word that is longer than the input

    [Loop.input] is three 13-character idioms, 39 characters, which the
    preprocessing rewrites to [Loop.rewritten], the text of three
    placeholders, 48 characters.  [Loop.wrapped] puts [sh -c] in front of
    the idioms; the grammar reads the rewritten text word by word. *)

Module Loop.

Definition idiom : string := "$(cat <<E" ++ String LF (String LF "E)").
Definition input : string := idiom ++ idiom ++ idiom.
Definition rewritten : string :=
  HEREDOC_PLACEHOLDER ++ HEREDOC_PLACEHOLDER ++ HEREDOC_PLACEHOLDER.

(** [sh -c] in front of the three idioms, 45 characters *)
Definition wrapped : string := "sh -c " ++ input.

(** the rewritten texts, read word by word *)
Definition words : string -> option ScriptNode :=
  Sample.lookup
    [ ("sh -c " ++ rewritten, Script [Sample.simple "sh" ["-c"; rewritten]]);
      (rewritten, Script [Sample.simple rewritten []]) ].

End Loop.

(** the check of [ArgsShrink] on one entry of a table grammar *)
Definition entryShrinks (entry : string * ScriptNode) : bool :=
  let (k, v) := entry in
  List.forallb
    (fun w => (String.length w <? String.length k) && (dollars w <=? dollars k))
    (scriptArgTexts v).

(** ** Command substitutions of a tree *)

(** the command nodes that [walkNode] reaches: through pipelines, logical
    expressions and subshells, and no further *)
Fixpoint walkedCommands (node : AstNode) : list AstNode :=
  match node with
  | Command _ _ _ => [node]
  | Pipeline cmds => flat_map walkedCommands cmds
  | LogicalExpression _ lhs rhs => (walkedCommands lhs ++ walkedCommands rhs)%list
  | Subshell (Some cmds) => flat_map walkedCommands cmds
  | Subshell None => []
  | Word _ | AssignmentWord _ | Other _ _ => []
  end.

(** every command node of a tree, wherever it stands *)
Fixpoint allCommands (node : AstNode) : list AstNode :=
  match node with
  | Command _ prefix suffix =>
      (node :: flat_map allCommands prefix ++ flat_map allCommands suffix)%list
  | Pipeline cmds => flat_map allCommands cmds
  | LogicalExpression _ lhs rhs => (allCommands lhs ++ allCommands rhs)%list
  | Subshell (Some cmds) => flat_map allCommands cmds
  | Subshell None => []
  | Word _ | AssignmentWord _ => []
  | Other _ children => flat_map allCommands children
  end.


(** ** The cat-heredoc idiom, as the specification words it

    The language of the expression
    [\$\(cat\s+<<-?\s*q?(\w+)q?\n[\s\S]*?\n\1\s*\)], q a single or a double
    quote: the pieces of an occurrence, and the text they make. *)

Record IdiomParts := {
  ws1 : string;      (* \s+ *)
  dash : string;     (* -? *)
  ws2 : string;      (* \s* *)
  q1 : string;       (* q? *)
  marker : string;   (* (\w+) *)
  q2 : string;       (* q? *)
  body : string;     (* [\s\S]*? *)
  ws3 : string       (* \s* *)
}.

Definition idiomText (p : IdiomParts) : string :=
  "$(cat" ++ ws1 p ++ "<<" ++ dash p ++ ws2 p ++ q1 p ++ marker p ++ q2 p
  ++ String LF (body p ++ String LF (marker p ++ ws3 p ++ ")")).

Definition Spaces (s : string) : Prop := Str.forallb isSpace s = true.
Definition WordChars (s : string) : Prop := Str.forallb isWordChar s = true.
Definition OptQuote (s : string) : Prop :=
  s = EmptyString \/ exists c, isQuote c = true /\ s = String c EmptyString.
Definition OptDash (s : string) : Prop := s = EmptyString \/ s = "-".

Definition WellFormed (p : IdiomParts) : Prop :=
  ws1 p <> EmptyString /\ Spaces (ws1 p) /\ OptDash (dash p) /\
  Spaces (ws2 p) /\ OptQuote (q1 p) /\
  marker p <> EmptyString /\ WordChars (marker p) /\
  OptQuote (q2 p) /\ Spaces (ws3 p).

(** no match of the expression begins inside [pre] when [rest] follows it *)
Definition NoMatchWithin (pre rest : string) : Prop :=
  forall a b, pre = a ++ b -> b <> EmptyString ->
              Re.catHeredocAt (b ++ rest) = None.

(** ** Regular expressions of the rule table

    The patterns of the rule table are JavaScript regular-expression
    sources.  They are written here as syntax trees; the table uses
    literals, alternation, the classes [\s], [[^\s]] and a set of
    characters, [*] and [+], the anchors and [\b]. *)

Module Rx.

Inductive CharClass :=
| Space                      (* \s *)
| NotSpace                   (* [^\s] *)
| OneOf (chars : string).    (* [...] *)

Inductive Regex :=
| Lit (s : string)
| Cls (c : CharClass)
| Seq (a b : Regex)
| Alt (a b : Regex)
| Star (r : Regex)
| Plus (r : Regex)
| Bol                        (* ^ *)
| Eol                        (* $ *)
| WordBoundary.              (* \b *)

Definition inClass (c : CharClass) (x : ascii) : bool :=
  match c with
  | Space => isSpace x
  | NotSpace => negb (isSpace x)
  | OneOf chars => Str.existsb (Ascii.eqb x) chars
  end.

(** the literal [lit] at the head of [s]: the last character passed and
    the rest *)
Fixpoint passLit (lit : string) (prev : option ascii) (s : string)
  : option (option ascii * string) :=
  match lit, s with
  | EmptyString, _ => Some (prev, s)
  | String a lit', String b s' =>
      if Ascii.eqb a b then passLit lit' (Some b) s' else None
  | String _ _, EmptyString => None
  end.

Definition isWordAt (c : option ascii) : bool :=
  match c with Some x => isWordChar x | None => false end.

Definition nextChar (s : string) : option ascii :=
  match s with String x _ => Some x | EmptyString => None end.

(** a backtracking matcher in continuation style: [run r prev s k] holds
    when [r] matches a prefix of [s] ([prev] is the character before it)
    and [k] accepts the last character passed and what is left.  A
    repetition only goes on after an iteration that consumed a character;
    the text bounds the number of such iterations. *)
Fixpoint run (r : Regex) (prev : option ascii) (s : string)
  (k : option ascii -> string -> bool) {struct r} : bool :=
  match r with
  | Lit lit =>
      match passLit lit prev s with
      | Some (prev', s') => k prev' s'
      | None => false
      end
  | Cls c =>
      match s with
      | String x s' => if inClass c x then k (Some x) s' else false
      | EmptyString => false
      end
  | Seq a b => run a prev s (fun prev' s' => run b prev' s' k)
  | Alt a b => run a prev s k || run b prev s k
  | Star a =>
      (fix loop (n : nat) (prev : option ascii) (s : string) : bool :=
         match n with
         | 0 => k prev s
         | S n' =>
             run a prev s
                 (fun prev' s' =>
                    if String.length s' <? String.length s
                    then loop n' prev' s' else false)
             || k prev s
         end) (String.length s) prev s
  | Plus a =>
      run a prev s
          (fun prev0 s0 =>
             (fix loop (n : nat) (prev : option ascii) (s : string) : bool :=
                match n with
                | 0 => k prev s
                | S n' =>
                    run a prev s
                        (fun prev' s' =>
                           if String.length s' <? String.length s
                           then loop n' prev' s' else false)
                    || k prev s
                end) (String.length s0) prev0 s0)
  | Bol => match prev with None => k prev s | Some _ => false end
  | Eol => match s with EmptyString => k prev s | _ => false end
  | WordBoundary =>
      if xorb (isWordAt prev) (isWordAt (nextChar s)) then k prev s else false
  end.

(** a match that starts at the head of [s] *)
Definition matchesAt (r : Regex) (prev : option ascii) (s : string) : bool :=
  run r prev s (fun _ _ => true).

(** [search]: a match at some position of the text *)
Fixpoint searchFrom (r : Regex) (prev : option ascii) (s : string) : bool :=
  matchesAt r prev s ||
  match s with
  | EmptyString => false
  | String c s' => searchFrom r (Some c) s'
  end.

Definition search (r : Regex) (s : string) : bool := searchFrom r None s.

(** [fullmatch]: a match of the whole text *)
Definition fullmatch (r : Regex) (s : string) : bool :=
  run r None s (fun _ s' => Str.isEmpty s').

Fixpoint seq (parts : list Regex) : Regex :=
  match parts with
  | [] => Lit EmptyString
  | [r] => r
  | r :: rest => Seq r (seq rest)
  end.

Fixpoint alt (parts : list Regex) : Regex :=
  match parts with
  | [] => Lit EmptyString
  | [r] => r
  | r :: rest => Alt r (alt rest)
  end.

(** [^(a|b|...)$] *)
Definition oneOfWords (items : list string) : Regex :=
  seq [Bol; alt (map Lit items); Eol].

End Rx.

(** ** The configuration model and the built-in defaults *)


Record ArgCount := {
  count_min : option nat;
  count_max : option nat
}.

Record MatchSpec := {
  anyArgMatches : option (list Rx.Regex);
  argsMatch : option (list Rx.Regex);
  noArgs : option bool;
  argCount : option ArgCount;
  negated : option bool
}.






Module Defaults.
Import Rx.

Definition noSpec : MatchSpec :=
  {| anyArgMatches := None; argsMatch := None; noArgs := None;
     argCount := None; negated := None |}.






Definition sp_plus : Regex := Plus (Cls Space).

(** [^--(version|help)$] and [^-[vh]$] *)
Definition re_version_help : Regex :=
  seq [Bol; Lit "--"; Alt (Lit "version") (Lit "help"); Eol].
Definition re_v_h : Regex := seq [Bol; Lit "-"; Cls (OneOf "vh"); Eol].


Definition SCRIPT_RUNNERS : list string := ["tsx"; "ts-node"; "nodemon"].




Definition anyArgMatchesPattern (items : list string) : Regex :=
  oneOfWords items.








(** [-[^\s]*r[^\s]*f|-[^\s]*f[^\s]*r] *)
Definition re_rm_recursive_force : Regex :=
  Alt (seq [Lit "-"; Star (Cls NotSpace); Lit "r"; Star (Cls NotSpace); Lit "f"])
      (seq [Lit "-"; Star (Cls NotSpace); Lit "f"; Star (Cls NotSpace); Lit "r"]).

(** [-[^\s]*r] *)
Definition re_rm_recursive : Regex :=
  seq [Lit "-"; Star (Cls NotSpace); Lit "r"].





End Defaults.


(** ** The rule matcher and the layered evaluator *)







(** the invocations of [rm -rf x] and [rm a.txt] *)
Definition rm_rf_x : ParsedCommand :=
  {| command := "rm"; args := ["-rf"; "x"]; envPrefixes := [];
     raw := "rm -rf x" |}.

Definition rm_file : ParsedCommand :=
  {| command := "rm"; args := ["a.txt"]; envPrefixes := [];
     raw := "rm a.txt" |}.

(** ** Predicates of the statements *)

(** [Prefix r s]: [r] is [s] without some last characters *)
Definition Prefix (r s : string) : Prop := exists q, s = r ++ q.

Definition noParen (s : string) : Prop :=
  Str.existsb (fun c => Ascii.eqb c ")") s = false.

(** [ProducedFrom word c]: [c] is the conversion of a command node whose
    name word has the text [word] *)
Definition ProducedFrom (word : string) (c : ParsedCommand) : Prop :=
  exists exps prefix suffix,
    convertCommand (Some {| text := word; expansion := exps |}) prefix suffix
    = Some c.

Definition Produced (c : ParsedCommand) : Prop := exists word, ProducedFrom word c.

(** [ReentryFails reenter]: the re-entry on the second argument of some
    shell wrapper reached the depth bound *)
Definition ReentryFails (reenter : string -> option ParseResult) : Prop :=
  exists parsed,
    isShellWrapper parsed = true /\
    reenter (nth 1 (args parsed) EmptyString) = None.


Definition sample_ls_invocation : ParsedCommand :=
  {| command := "ls"; args := ["-l"; "/tmp"]; envPrefixes := ["FOO=1"];
     raw := "FOO=1 /usr/bin/ls -l /tmp" |}.

Definition sample_idiom : IdiomParts :=
  {| ws1 := " "; dash := EmptyString; ws2 := EmptyString; q1 := EmptyString;
     marker := "EOF"; q2 := EmptyString; body := "hello";
     ws3 := Sample.nl |}.

(** ** What the walk makes of a tree without shell wrappers *)

(** the command node is a [sh -c] wrapper: its invocation passes the test
    of the unwrap *)
Definition isWrapperNode (node : AstNode) : bool :=
  match node with
  | Command name prefix suffix =>
      match convertCommand name prefix suffix with
      | Some parsed => isShellWrapper parsed
      | None => false
      end
  | _ => false
  end.

Definition wrapperFree (node : AstNode) : bool :=
  List.forallb (fun c => negb (isWrapperNode c)) (walkedCommands node).

(** the invocations of a list of command nodes, in order; a command
    without a name gives none *)
Definition conversions (nodes : list AstNode) : list ParsedCommand :=
  flat_map (fun c => match c with
                     | Command name prefix suffix =>
                         match convertCommand name prefix suffix with
                         | Some parsed => [parsed]
                         | None => []
                         end
                     | _ => []
                     end) nodes.

(** what taints on the way: a subshell, a control-flow construct, a
    reached command with a substitution *)
Fixpoint taints (node : AstNode) : bool :=
  match node with
  | Command _ _ _ => 0 <? List.length (collectCommandExpansions node)
  | Pipeline cmds => List.existsb taints cmds
  | LogicalExpression _ lhs rhs => taints lhs || taints rhs
  | Subshell _ => true
  | Other t _ => isComplexType t
  | Word _ | AssignmentWord _ => false
  end.

(** a command node with a heredoc redirect in its suffix *)
Definition heredocCommand (node : AstNode) : bool :=
  match node with
  | Command _ _ suffix => hasHeredocRedirect suffix
  | _ => false
  end.

(** [s.includes(lit)] *)
Fixpoint occurs (lit s : string) : bool :=
  match Str.stripPrefix lit s with
  | Some _ => true
  | None =>
      match s with
      | EmptyString => false
      | String _ r => occurs lit r
      end
  end.

(** ** Auxiliary notions of the further properties *)

Definition walked_sample : WalkResult :=
  {| wr_commands := [sample_ls_invocation];
     wr_hasSubshell := true;
     wr_subshellCommands := ["date"] |}.

(** what the walk of [nodes] adds to the accumulator when no reached
    command is a wrapper *)
Definition walkedOver (nodes : list AstNode) (result : WalkResult) : WalkResult :=
  {| wr_commands :=
       (wr_commands result ++ conversions (flat_map walkedCommands nodes))%list;
     wr_hasSubshell := wr_hasSubshell result || List.existsb taints nodes;
     wr_subshellCommands :=
       (wr_subshellCommands result
        ++ flat_map collectCommandExpansions (flat_map walkedCommands nodes))%list |}.

(** [Rewritten s t]: [t] is [s] with some occurrences of the idiom, each
    of them well formed, replaced by the placeholder, and every other
    character kept in its place *)
Inductive Rewritten : string -> string -> Prop :=
| Rewritten_end : Rewritten EmptyString EmptyString
| Rewritten_keep c s t : Rewritten s t -> Rewritten (String c s) (String c t)
| Rewritten_idiom p s t :
    WellFormed p -> Rewritten s t ->
    Rewritten (idiomText p ++ s) (HEREDOC_PLACEHOLDER ++ t).

Definition notSlash (c : ascii) : bool := negb (isSlash c).

(** an item that is plain text in a regular expression: letters, digits,
    the underscore and the hyphen, as in every list of the rule table *)
Definition isPlainItem (item : string) : bool :=
  Str.forallb (fun c => isWordChar c || Re.isDash c) item.

Definition isWordNode (node : AstNode) : bool :=
  match node with Word _ => true | _ => false end.

(** the tree shows, on the way of the walk, a subshell or a control-flow
    construct *)
Fixpoint structural (node : AstNode) : bool :=
  match node with
  | Command _ _ _ | Word _ | AssignmentWord _ => false
  | Pipeline cmds => List.existsb structural cmds
  | LogicalExpression _ lhs rhs => structural lhs || structural rhs
  | Subshell _ => true
  | Other t _ => isComplexType t
  end.

Definition taintIf (b : bool) (result : WalkResult) : WalkResult :=
  if b then taint result else result.

(** * Properties *)

(** ** Worked values *)

Example basename_usr_bin_ls : basename "/usr/bin/ls" = "ls".
Proof. reflexivity. Qed.

Example basename_trailing : basename "a/b//" = "b".
Proof. reflexivity. Qed.

Example basename_root : basename "/" = EmptyString.
Proof. reflexivity. Qed.

Example trim_example : Str.trim "  ls -la  " = "ls -la".
Proof. reflexivity. Qed.

Example preprocess_body :
  preprocessCatHeredocs
    ("gh pr create --body '$(cat <<EOF" ++ String LF ("hello" ++ String LF
      ("EOF" ++ String LF ")'")))
  = "gh pr create --body '__HEREDOC_TEXT__'".
Proof. reflexivity. Qed.

(** ** The preprocessing, step by step *)

Lemma preprocessCatHeredocs_step s :
  preprocessCatHeredocs s =
  match Re.catHeredocAt s with
  | Some rest => HEREDOC_PLACEHOLDER ++ preprocessCatHeredocs rest
  | None =>
      match s with
      | EmptyString => EmptyString
      | String c r => String c (preprocessCatHeredocs r)
      end
  end.
Proof.
  funelim (preprocessCatHeredocs s);
    try match goal with
        | H : Re.catHeredocAt _ = _ |- _ => rewrite H
        end; reflexivity.
Qed.

Lemma preprocessCatHeredocs_weight s :
  weight (preprocessCatHeredocs s) <= weight s.
Proof.
  remember (String.length s) as n eqn:En.
  revert s En; induction n as [n IH] using lt_wf_ind; intros s En.
  rewrite preprocessCatHeredocs_step.
  destruct (Re.catHeredocAt s) as [rest|] eqn:E.
  - pose proof (catHeredocAt_length _ _ E) as L.
    apply catHeredocAt_Suffix in E as (s' & -> & S).
    specialize (IH (String.length rest) ltac:(lia) rest eq_refl).
    pose proof (Suffix_length _ _ _ S). pose proof (Suffix_count _ isDollar _ _ S).
    unfold weight, dollars in *.
    rewrite length_append, count_append. simpl in *. lia.
  - destruct s as [|c r]; [simpl; lia|].
    specialize (IH (String.length r) ltac:(simpl in En; lia) r eq_refl).
    unfold weight, dollars in *. simpl. lia.
Qed.

(** the rewriting can make the string longer *)
Example preprocessCatHeredocs_lengthens :
  let idiom := "$(cat <<E" ++ String LF (String LF "E)") in
  String.length idiom = 13 /\
  preprocessCatHeredocs idiom = HEREDOC_PLACEHOLDER /\
  String.length (preprocessCatHeredocs idiom) = 16.
Proof. repeat split. Qed.

(** ** The parser on the table grammar *)

Example parse_ls :
  parseCommand Sample.grammar 1 Sample.in_ls
  = Some (mkResult [ {| command := "ls"; args := ["-la"]; envPrefixes := [];
                        raw := "ls -la" |} ] false [] false).
Proof. reflexivity. Qed.

Example parse_sh_ls :
  parseCommand Sample.grammar 2 Sample.in_sh_ls
  = parseCommand Sample.grammar 1 Sample.in_ls.
Proof. reflexivity. Qed.

Example parse_sh_ls_shallow :
  parseCommand Sample.grammar 1 Sample.in_sh_ls = None.
Proof. reflexivity. Qed.

Example parse_bash_bad :
  parseCommand Sample.grammar 2 Sample.in_bash_bad
  = Some (mkResult [ {| command := "bash"; args := ["-c"; "echo ("];
                        envPrefixes := []; raw := "bash -c echo (" |} ]
                   false [] false).
Proof. reflexivity. Qed.

Example parse_echo_sub :
  parseCommand Sample.grammar 1 Sample.in_echo_sub
  = Some (mkResult [ {| command := "echo"; args := ["$(whoami)"];
                        envPrefixes := []; raw := "echo $(whoami)" |} ]
                   true ["whoami"] false).
Proof. reflexivity. Qed.

Example parse_env_path :
  parseCommand Sample.grammar 1 Sample.in_env_path
  = Some (mkResult [ {| command := "ls"; args := ["-l"; "/tmp"];
                        envPrefixes := ["FOO=1"];
                        raw := "FOO=1 /usr/bin/ls -l /tmp" |} ]
                   false [] false).
Proof. reflexivity. Qed.

Example parse_heredoc :
  parseCommand Sample.grammar 1 Sample.in_heredoc
  = Some (mkResult [ {| command := "cat"; args := []; envPrefixes := [];
                        raw := "cat" |} ] true [] false).
Proof. reflexivity. Qed.

Example parse_gh :
  parseCommand Sample.grammar 1 Sample.in_gh
  = Some (mkResult
            [ {| command := "gh";
                 args := ["pr"; "create"; "--body"; "__HEREDOC_TEXT__"];
                 envPrefixes := [];
                 raw := "gh pr create --body __HEREDOC_TEXT__" |} ]
            false [] false).
Proof. reflexivity. Qed.

(** ** Invariants of the walk

    Every step of [walkNode] changes the accumulator through [taint],
    [pushExpansions], [pushCommand] or [pushInner]; a property that these
    four keep is kept by the walk. *)

Section WalkInvariant.
Variable reenter : string -> option ParseResult.
Variable Q : WalkResult -> Prop.
Hypothesis Q_taint : forall result, Q result -> Q (taint result).
Hypothesis Q_pushExpansions :
  forall es result, Q result -> Q (pushExpansions es result).
Hypothesis Q_pushCommand :
  forall name prefix suffix parsed result,
    convertCommand name prefix suffix = Some parsed ->
    Q result -> Q (pushCommand parsed result).
Hypothesis Q_pushInner :
  forall script inner result,
    reenter script = Some inner -> parseError inner = false ->
    Q result -> Q (pushInner inner result).

Lemma walkEach_invariant nodes :
  Forall (fun node => forall result result',
              walkNode reenter node result = Some result' ->
              Q result -> Q result') nodes ->
  forall result result',
    walkEach (walkNode reenter) nodes result = Some result' ->
    Q result -> Q result'.
Proof.
  induction 1 as [|node rest Hnode _ IH]; intros result result' W HQ; simpl in W.
  - now inversion W; subst.
  - destruct (walkNode reenter node result) as [mid|] eqn:E; [|discriminate].
    eapply IH; [exact W|]. eapply Hnode; eassumption.
Qed.

Lemma walkNode_invariant node :
  forall result result',
    walkNode reenter node result = Some result' -> Q result -> Q result'.
Proof.
  induction node as
    [name prefix suffix _ _ | w | t | cmds IH | op l r IHl IHr
    | cmds IH | | t children _] using AstNode_nested_ind;
    intros result result' W HQ; cbn [walkNode] in W.
  - destruct (convertCommand name prefix suffix) as [parsed|] eqn:C.
    + destruct (isShellWrapper parsed).
      * destruct (reenter (nth 1 (args parsed) EmptyString)) as [inner|] eqn:R;
          [|discriminate].
        destruct (parseError inner) eqn:PE; inversion W; subst.
        -- eapply Q_pushCommand; eauto.
        -- eapply Q_pushInner; eauto.
      * inversion W; subst. eapply Q_pushCommand; eauto.
    + inversion W; subst. auto.
  - now inversion W; subst.
  - now inversion W; subst.
  - eapply walkEach_invariant; eauto.
  - destruct (walkNode reenter l result) as [mid|] eqn:E; [|discriminate].
    eauto.
  - eapply walkEach_invariant; eauto.
  - inversion W; subst; auto.
  - destruct (isComplexType t); inversion W; subst; auto.
Qed.

Lemma walkNodes_invariant nodes result result' :
  walkNodes reenter nodes result = Some result' -> Q result -> Q result'.
Proof.
  apply walkEach_invariant.
  apply Forall_forall; intros node _. apply walkNode_invariant.
Qed.
End WalkInvariant.

(** ** Basename normalisation *)

Lemma existsb_append p (a b : string) :
  Str.existsb p (a ++ b) = Str.existsb p a || Str.existsb p b.
Proof.
  induction a as [|x a IH]; simpl; [reflexivity|].
  now rewrite IH, orb_assoc.
Qed.

Lemma rev_append (a b : string) : Str.rev (a ++ b) = Str.rev b ++ Str.rev a.
Proof.
  induction a as [|x a IH]; simpl.
  - now rewrite append_nil_r.
  - now rewrite IH, append_assoc.
Qed.

Lemma rev_involutive (s : string) : Str.rev (Str.rev s) = s.
Proof.
  induction s as [|x s IH]; simpl; [reflexivity|].
  rewrite rev_append, IH. reflexivity.
Qed.

Lemma existsb_rev p (s : string) : Str.existsb p (Str.rev s) = Str.existsb p s.
Proof.
  induction s as [|x s IH]; simpl; [reflexivity|].
  rewrite existsb_append, IH. simpl.
  rewrite orb_false_r. apply orb_comm.
Qed.

Lemma existsb_takeWhile_negb p (s : string) :
  Str.existsb p (Str.takeWhile (fun c => negb (p c)) s) = false.
Proof.
  induction s as [|x s IH]; simpl; [reflexivity|].
  destruct (p x) eqn:E; simpl; [reflexivity|]. now rewrite E.
Qed.

Lemma takeWhile_all p (s : string) :
  Str.existsb p s = false -> Str.takeWhile (fun c => negb (p c)) s = s.
Proof.
  induction s as [|x s IH]; simpl; [reflexivity|].
  intros H. apply orb_false_iff in H as [Hx Hs].
  rewrite Hx. simpl. now rewrite IH.
Qed.

Lemma dropWhile_none p (s : string) :
  Str.existsb p s = false -> Str.dropWhile p s = s.
Proof.
  destruct s as [|x s]; simpl; [reflexivity|].
  intros H. apply orb_false_iff in H as [Hx _]. now rewrite Hx.
Qed.

Lemma existsb_Suffix p n r s :
  Suffix n r s -> Str.existsb p s = false -> Str.existsb p r = false.
Proof.
  intros (q & -> & _) H. rewrite existsb_append in H.
  now apply orb_false_iff in H.
Qed.

(** the basename holds no path separator *)
Lemma basename_no_slash path : Str.includesSlash (basename path) = false.
Proof.
  unfold basename, Str.includesSlash.
  rewrite existsb_rev. apply existsb_takeWhile_negb.
Qed.

(** a word without a separator is its own basename, so the two branches of
    [convertCommand] agree with [basename] *)
Lemma basename_without_slash path :
  Str.includesSlash path = false -> basename path = path.
Proof.
  unfold basename, Str.includesSlash. intros H.
  rewrite <- existsb_rev in H.
  rewrite (dropWhile_none _ _ H), (takeWhile_all _ _ H).
  apply rev_involutive.
Qed.

(** ** What [convertCommand] produces *)

Lemma convertCommand_Produced name prefix suffix parsed :
  convertCommand name prefix suffix = Some parsed -> Produced parsed.
Proof.
  destruct name as [[word exps]|]; [|discriminate].
  intros H. exists word, exps, prefix, suffix. exact H.
Qed.

Lemma ProducedFrom_command word c :
  ProducedFrom word c -> command c = basename word.
Proof.
  intros (exps & prefix & suffix & H).
  unfold convertCommand in H; cbn [text] in H.
  injection H as <-. cbn [command].
  destruct (Str.includesSlash word) eqn:E; [reflexivity|].
  symmetry. now apply basename_without_slash.
Qed.

Lemma ProducedFrom_raw word c :
  ProducedFrom word c ->
  raw c = Str.join " " (envPrefixes c ++ [word] ++ args c)%list.
Proof.
  intros (exps & prefix & suffix & H).
  unfold convertCommand in H; cbn [text] in H.
  injection H as <-. reflexivity.
Qed.

(** a part of a joined list stands inside the joined text *)
Lemma join_holds_part sep parts part :
  In part parts ->
  exists before after, Str.join sep parts = before ++ part ++ after.
Proof.
  induction parts as [|p rest IH]; intros H; [contradiction|].
  destruct H as [->|H].
  - destruct rest as [|q rest].
    + exists EmptyString, EmptyString. cbn. now rewrite append_nil_r.
    + exists EmptyString, (sep ++ Str.join sep (q :: rest)). reflexivity.
  - destruct rest as [|q rest]; [contradiction|].
    destruct (IH H) as (before & after & E).
    exists (p ++ sep ++ before), after.
    change (Str.join sep (p :: q :: rest))
      with (p ++ sep ++ Str.join sep (q :: rest)).
    rewrite E. now rewrite !append_assoc.
Qed.

(** every invocation that the parser returns was produced by
    [convertCommand], whatever the grammar and the depth *)
Lemma parseCommand_Produced parse fuel :
  forall input r,
    parseCommand parse fuel input = Some r -> Forall Produced (commands r).
Proof.
  induction fuel as [|fuel IH]; intros input r H; [discriminate|].
  cbn [parseCommand] in H.
  destruct (isBlank input); [inversion H; subst; constructor|].
  set (reenter := parseCommand parse fuel) in *.
  assert (Walk : forall nodes result,
             walkNodes reenter nodes emptyWalk = Some result ->
             Forall Produced (wr_commands result)).
  { intros nodes result W.
    refine (walkNodes_invariant reenter
              (fun res => Forall Produced (wr_commands res)) _ _ _ _
              nodes emptyWalk result W _);
      [| | | |constructor]; cbn.
    - auto.
    - intros es res HQ. unfold pushExpansions.
      destruct (0 <? List.length es); auto.
    - intros name prefix suffix parsed res C HQ.
      apply Forall_app; split; [assumption|].
      constructor; [|constructor]. eapply convertCommand_Produced; eauto.
    - intros script inner res R _ HQ.
      apply Forall_app; split; [assumption|]. eapply IH; exact R. }
  unfold parsePreprocessed in H.
  repeat match type of H with
         | context [match ?x with _ => _ end] =>
             let E := fresh "E" in destruct x eqn:E
         end;
    try discriminate; inversion H; subst; cbn; try constructor; eauto.
Qed.

(** ** Basename and raw text of the returned invocations *)

(** C8 -- every invocation that [parseCommand] returns comes from a command
    node; its [command] is the basename of that node's name word, it holds
    no path separator, and the name word itself, path included, stands
    inside [raw]. *)
Theorem command_is_basename parse fuel input r c :
  parseCommand parse fuel input = Some r ->
  In c (commands r) ->
  exists word,
    ProducedFrom word c /\
    command c = basename word /\
    Str.includesSlash (command c) = false /\
    exists before after, raw c = before ++ word ++ after.
Proof.
  intros H Hc.
  pose proof (parseCommand_Produced parse fuel input r H) as All.
  rewrite Forall_forall in All. destruct (All c Hc) as (word & P).
  exists word. split; [exact P|].
  pose proof (ProducedFrom_command word c P) as Ec.
  split; [exact Ec|]. split.
  - rewrite Ec. apply basename_no_slash.
  - rewrite (ProducedFrom_raw word c P).
    apply join_holds_part, in_or_app. right. left. reflexivity.
Qed.

Lemma command_is_basename_witness :
  exists word,
    ProducedFrom word sample_ls_invocation /\
    command sample_ls_invocation = basename word /\
    Str.includesSlash (command sample_ls_invocation) = false /\
    exists before after, raw sample_ls_invocation = before ++ word ++ after.
Proof.
  apply (command_is_basename Sample.grammar 1 Sample.in_env_path
           (mkResult [sample_ls_invocation] false [] false)).
  - reflexivity.
  - left. reflexivity.
Defined.

(** C9 -- for every invocation that [parseCommand] returns, joining the
    environment prefixes, the name word as it was written (path included)
    and the arguments with single spaces gives [raw]. *)
Theorem raw_round_trip parse fuel input r c :
  parseCommand parse fuel input = Some r ->
  In c (commands r) ->
  exists word,
    ProducedFrom word c /\
    Str.join " " (envPrefixes c ++ [word] ++ args c)%list = raw c.
Proof.
  intros H Hc.
  pose proof (parseCommand_Produced parse fuel input r H) as All.
  rewrite Forall_forall in All. destruct (All c Hc) as (word & P).
  exists word. split; [exact P|].
  symmetry. now apply ProducedFrom_raw.
Qed.

Lemma raw_round_trip_witness :
  exists word,
    ProducedFrom word sample_ls_invocation /\
    Str.join " " (envPrefixes sample_ls_invocation ++ [word]
                  ++ args sample_ls_invocation)%list
    = raw sample_ls_invocation.
Proof.
  apply (raw_round_trip Sample.grammar 1 Sample.in_env_path
           (mkResult [sample_ls_invocation] false [] false)).
  - reflexivity.
  - left. reflexivity.
Defined.

(** ** The [sh -c] unwrap *)



(** the wrapper is kept when the inner text does not parse *)
Example shell_wrapper_kept :
  walkNode (parseCommand Sample.grammar 1)
           (Sample.simple "bash" ["-c"; "echo ("]) emptyWalk
  = Some {| wr_commands := [ {| command := "bash"; args := ["-c"; "echo ("];
                                envPrefixes := []; raw := "bash -c echo (" |} ];
            wr_hasSubshell := false;
            wr_subshellCommands := [] |}.
Proof. reflexivity. Qed.

(** ** Parse failures *)

(** C6, as the code has it -- when the grammar refuses the preprocessed
    input: without a heredoc operator in it the result is a parse error
    with [hasSubshell = false]; with one, and a first line that is empty
    after stripping or is refused in turn, the result is a parse error with
    [hasSubshell = true]. *)
Theorem parse_failure_result parse fuel input :
  isBlank input = false ->
  parse (preprocessCatHeredocs input) = None ->
  let text := preprocessCatHeredocs input in
  (Re.HEREDOC_REGEX_test text = false ->
   parseCommand parse (S fuel) input = Some (mkResult [] false [] true))
  /\
  (Re.HEREDOC_REGEX_test text = true ->
   Str.isEmpty (heredocCmdPart text) = true \/ parse (heredocCmdPart text) = None ->
   parseCommand parse (S fuel) input = Some (mkResult [] true [] true)).
Proof.
  intros B P text. subst text. cbn [parseCommand]. rewrite B.
  unfold parsePreprocessed. rewrite P. split.
  - intros T. now rewrite T.
  - intros T [E | E]; rewrite T.
    + now rewrite E.
    + rewrite E.
      now destruct (Str.isEmpty (heredocCmdPart (preprocessCatHeredocs input))).
Qed.

Lemma parse_failure_result_witness :
  (Re.HEREDOC_REGEX_test (preprocessCatHeredocs "echo (") = false ->
   parseCommand Sample.grammar 1 "echo (" = Some (mkResult [] false [] true))
  /\
  (Re.HEREDOC_REGEX_test (preprocessCatHeredocs "echo (") = true ->
   Str.isEmpty (heredocCmdPart (preprocessCatHeredocs "echo (")) = true
   \/ Sample.grammar (heredocCmdPart (preprocessCatHeredocs "echo (")) = None ->
   parseCommand Sample.grammar 1 "echo (" = Some (mkResult [] true [] true)).
Proof.
  apply (parse_failure_result Sample.grammar 0 "echo ("); reflexivity.
Defined.

(** C6, as stated, fails -- where no heredoc operator is in sight: the
    grammar refuses [echo (], the heredoc expression does not match it, and
    the result is a parse error with [hasSubshell = false]. *)
Lemma parse_failure_untainted :
  Sample.grammar (preprocessCatHeredocs "echo (") = None /\
  Re.HEREDOC_REGEX_test (preprocessCatHeredocs "echo (") = false /\
  exists r, parseCommand Sample.grammar 1 "echo (" = Some r /\
            parseError r = true /\ hasSubshell r = false.
Proof.
  repeat split. exists (mkResult [] false [] true). repeat split.
Qed.

(** the fallback on a refused heredoc whose first line holds nothing but
    the operator *)
Example parse_failure_heredoc_only :
  parseCommand Sample.grammar 1 "<<EOF" = Some (mkResult [] true [] true).
Proof. reflexivity. Qed.

(** ** Termination *)

Lemma weight_Suffix n r s : Suffix n r s -> weight r <= weight s.
Proof.
  intros S. pose proof (Suffix_length _ _ _ S).
  pose proof (Suffix_count _ isDollar _ _ S). unfold weight, dollars. lia.
Qed.

Lemma weight_Prefix r s : Prefix r s -> weight r <= weight s.
Proof.
  intros (q & ->). unfold weight, dollars.
  rewrite length_append, count_append. lia.
Qed.

Lemma trimEnd_Prefix s : Prefix (Str.trimEnd s) s.
Proof.
  induction s as [|c r (q & IH)]; cbn [Str.trimEnd].
  - exists EmptyString. reflexivity.
  - destruct (Str.isEmpty (Str.trimEnd r) && isSpace c).
    + exists (String c r). reflexivity.
    + exists q. cbn. now rewrite <- IH.
Qed.

Lemma stripHeredocSuffix_Prefix s : Prefix (Re.stripHeredocSuffix s) s.
Proof.
  induction s as [|c r (q & IH)]; cbn [Re.stripHeredocSuffix].
  - destruct (Re.heredocSuffixAt EmptyString); exists EmptyString; reflexivity.
  - destruct (Re.heredocSuffixAt (String c r)).
    + exists (String c r). reflexivity.
    + exists q. cbn. now rewrite <- IH.
Qed.

Lemma firstLine_Prefix s : Prefix (Str.firstLine s) s.
Proof.
  exists (Str.dropWhile (fun c => negb (isLF c)) s).
  unfold Str.firstLine. now rewrite takeWhile_dropWhile.
Qed.

(** the command part of the first line is no heavier than the text *)
Lemma heredocCmdPart_weight s : weight (heredocCmdPart s) <= weight s.
Proof.
  unfold heredocCmdPart, Str.trim, Str.trimStart.
  pose proof (weight_Prefix _ _ (trimEnd_Prefix
    (Str.dropWhile isSpace (Re.stripHeredocSuffix (Str.firstLine s))))).
  pose proof (weight_Suffix _ _ _ (dropWhile_Suffix isSpace
    (Re.stripHeredocSuffix (Str.firstLine s)))).
  pose proof (weight_Prefix _ _ (stripHeredocSuffix_Prefix (Str.firstLine s))).
  pose proof (weight_Prefix _ _ (firstLine_Prefix s)).
  lia.
Qed.

Lemma convertCommand_args name prefix suffix parsed :
  convertCommand name prefix suffix = Some parsed ->
  args parsed = wordTexts suffix.
Proof.
  destruct name as [n|]; [|discriminate].
  unfold convertCommand. intros H. injection H as <-. reflexivity.
Qed.

Lemma isShellWrapper_script parsed :
  isShellWrapper parsed = true ->
  In (nth 1 (args parsed) EmptyString) (args parsed).
Proof.
  unfold isShellWrapper. intros H.
  apply andb_prop in H as [H _]. apply andb_prop in H as [_ H].
  apply Nat.leb_le in H. apply nth_In. lia.
Qed.

Section Totality.
Variable reenter : string -> option ParseResult.
Variable bound : nat.
Hypothesis reenter_below :
  forall w, weight w < bound -> exists r, reenter w = Some r.

Lemma walkEach_total nodes :
  Forall (fun node => forall result,
              exists result', walkNode reenter node result = Some result')
         nodes ->
  forall result,
  exists result', walkEach (walkNode reenter) nodes result = Some result'.
Proof.
  induction 1 as [|node rest Hnode _ IH]; intros result; cbn.
  - eauto.
  - destruct (Hnode result) as (mid & ->). apply IH.
Qed.

Lemma Forall_flat_map_args (cmds : list AstNode) (Q : AstNode -> Prop) :
  Forall (fun node =>
            (forall w, In w (argTexts node) -> weight w < bound) -> Q node)
         cmds ->
  (forall w, In w (flat_map argTexts cmds) -> weight w < bound) ->
  Forall Q cmds.
Proof.
  intros IH Hw. rewrite Forall_forall in *. intros node Hn.
  apply IH; [exact Hn|]. intros w Hin. apply Hw.
  apply in_flat_map. eauto.
Qed.

Lemma walkNode_total node :
  (forall w, In w (argTexts node) -> weight w < bound) ->
  forall result,
  exists result', walkNode reenter node result = Some result'.
Proof.
  induction node as
    [name prefix suffix _ _ | w | t | cmds IH | op l r IHl IHr
    | cmds IH | | t children _] using AstNode_nested_ind;
    intros Hw result; cbn [walkNode].
  - destruct (convertCommand name prefix suffix) as [parsed|] eqn:C; [|eauto].
    destruct (isShellWrapper parsed) eqn:W; [|eauto].
    destruct (reenter_below (nth 1 (args parsed) EmptyString)) as (inner & ->).
    { apply Hw. cbn [argTexts]. apply in_or_app. left.
      rewrite <- (convertCommand_args _ _ _ _ C).
      now apply isShellWrapper_script. }
    destruct (parseError inner); eauto.
  - eauto.
  - eauto.
  - apply walkEach_total. now apply Forall_flat_map_args.
  - cbn [argTexts] in Hw.
    destruct (IHl (fun w H => Hw w (in_or_app _ _ _ (or_introl H))) result)
      as (mid & ->).
    apply IHr. intros w H. apply Hw, in_or_app. now right.
  - apply walkEach_total. now apply Forall_flat_map_args.
  - eauto.
  - destruct (isComplexType t); eauto.
Qed.

Lemma walkNodes_total nodes :
  (forall w, In w (flat_map argTexts nodes) -> weight w < bound) ->
  forall result,
  exists result', walkNodes reenter nodes result = Some result'.
Proof.
  intros Hw. apply walkEach_total.
  apply Forall_flat_map_args; [|exact Hw].
  apply Forall_forall. intros node _ H. now apply walkNode_total.
Qed.
End Totality.

Lemma ArgsShrink_weight parse s ast w :
  ArgsShrink parse -> parse s = Some ast -> In w (scriptArgTexts ast) ->
  weight w < weight s.
Proof.
  intros H P I. destruct (H s ast w P I). unfold weight. lia.
Qed.

Lemma parsePreprocessed_total parse reenter text :
  ArgsShrink parse ->
  (forall w, weight w < weight text -> exists r, reenter w = Some r) ->
  exists r, parsePreprocessed parse reenter text = Some r.
Proof.
  intros Shrink Below.
  assert (Walk : forall s ast,
             weight s <= weight text -> parse s = Some ast ->
             exists result,
               walkNodes reenter (script_commands ast) emptyWalk = Some result).
  { intros s ast Hs P.
    apply walkNodes_total with (bound := weight text); [exact Below|].
    intros w I. pose proof (ArgsShrink_weight parse s ast w Shrink P I). lia. }
  pose proof (heredocCmdPart_weight text) as Part.
  unfold parsePreprocessed.
  destruct (parse text) as [ast|] eqn:P.
  - destruct (astHasHeredoc ast).
    + destruct (Str.isEmpty (heredocCmdPart text)); [eauto|].
      destruct (parse (heredocCmdPart text)) as [cmdAst|] eqn:P'; [|eauto].
      destruct (Walk _ _ Part P') as (result & ->). eauto.
    + destruct (Walk _ _ (le_n _) P) as (result & ->). eauto.
  - destruct (Re.HEREDOC_REGEX_test text); [|eauto].
    destruct (Str.isEmpty (heredocCmdPart text)); [eauto|].
    destruct (parse (heredocCmdPart text)) as [cmdAst|] eqn:P'; [|eauto].
    destruct (Walk _ _ Part P') as (result & ->). eauto.
Qed.

(** a depth bound above the weight of the input is never reached *)
Lemma parseCommand_enough_fuel parse :
  ArgsShrink parse ->
  forall fuel input,
    weight input < fuel -> exists r, parseCommand parse fuel input = Some r.
Proof.
  intros Shrink. induction fuel as [|fuel IH]; intros input Hw; [lia|].
  cbn [parseCommand]. destruct (isBlank input); [eauto|].
  apply parsePreprocessed_total; [exact Shrink|].
  intros w Hlt. apply IH.
  pose proof (preprocessCatHeredocs_weight input). lia.
Qed.

(** *** The result does not depend on the depth bound *)

Section Deeper.
Variables reenter reenter' : string -> option ParseResult.
Hypothesis deeper : forall w r, reenter w = Some r -> reenter' w = Some r.

Lemma walkEach_deeper nodes :
  Forall (fun node => forall result result',
              walkNode reenter node result = Some result' ->
              walkNode reenter' node result = Some result') nodes ->
  forall result result',
    walkEach (walkNode reenter) nodes result = Some result' ->
    walkEach (walkNode reenter') nodes result = Some result'.
Proof.
  induction 1 as [|node rest Hnode _ IH]; intros result result' W; cbn in *.
  - exact W.
  - destruct (walkNode reenter node result) as [mid|] eqn:E; [|discriminate].
    rewrite (Hnode _ _ E). now apply IH.
Qed.

Lemma walkNode_deeper node :
  forall result result',
    walkNode reenter node result = Some result' ->
    walkNode reenter' node result = Some result'.
Proof.
  induction node as
    [name prefix suffix _ _ | w | t | cmds IH | op l r IHl IHr
    | cmds IH | | t children _] using AstNode_nested_ind;
    intros result result' W; cbn [walkNode] in *; try exact W.
  - destruct (convertCommand name prefix suffix) as [parsed|]; [|exact W].
    destruct (isShellWrapper parsed); [|exact W].
    destruct (reenter (nth 1 (args parsed) EmptyString)) as [inner|] eqn:R;
      [|discriminate].
    now rewrite (deeper _ _ R).
  - now apply walkEach_deeper.
  - destruct (walkNode reenter l result) as [mid|] eqn:E; [|discriminate].
    rewrite (IHl _ _ E). now apply IHr.
  - now apply walkEach_deeper.
Qed.

Lemma walkNodes_deeper nodes result result' :
  walkNodes reenter nodes result = Some result' ->
  walkNodes reenter' nodes result = Some result'.
Proof.
  apply walkEach_deeper, Forall_forall. intros node _. apply walkNode_deeper.
Qed.

Lemma parsePreprocessed_deeper parse text r :
  parsePreprocessed parse reenter text = Some r ->
  parsePreprocessed parse reenter' text = Some r.
Proof.
  unfold parsePreprocessed. intros H.
  repeat match type of H with
         | context [match walkNodes reenter ?n ?w with _ => _ end] =>
             let E := fresh "E" in
             destruct (walkNodes reenter n w) eqn:E;
             [rewrite (walkNodes_deeper _ _ _ E) | discriminate]
         | context [match ?x with _ => _ end] => destruct x
         end; exact H.
Qed.
End Deeper.

Lemma parseCommand_deeper parse fuel :
  forall input r,
    parseCommand parse fuel input = Some r ->
    parseCommand parse (S fuel) input = Some r.
Proof.
  induction fuel as [|fuel IH]; intros input r H; [discriminate|].
  cbn [parseCommand] in *. destruct (isBlank input); [exact H|].
  eapply parsePreprocessed_deeper; [|exact H]. exact IH.
Qed.

Lemma parseCommand_fuel_mono parse fuel fuel' input r :
  fuel <= fuel' ->
  parseCommand parse fuel input = Some r ->
  parseCommand parse fuel' input = Some r.
Proof.
  induction 1 as [|fuel' _ IH]; intros H; [exact H|].
  now apply parseCommand_deeper, IH.
Qed.

(** *** The depth bound is reached in a re-entry only

    [None] comes from nowhere but the re-entry on the second argument of a
    shell wrapper: whatever the grammar, no other step of the parser is
    left without a result. *)

Section BoundReached.
Variable reenter : string -> option ParseResult.

Lemma walkEach_None nodes :
  Forall (fun node => forall result,
              walkNode reenter node result = None -> ReentryFails reenter) nodes ->
  forall result,
    walkEach (walkNode reenter) nodes result = None -> ReentryFails reenter.
Proof.
  induction 1 as [|node rest Hnode _ IH]; intros result W; cbn in W;
    [discriminate|].
  destruct (walkNode reenter node result) as [mid|] eqn:E; eauto.
Qed.

Lemma walkNode_None node :
  forall result, walkNode reenter node result = None -> ReentryFails reenter.
Proof.
  induction node as
    [name prefix suffix _ _ | w | t | cmds IH | op l r IHl IHr
    | cmds IH | | t children _] using AstNode_nested_ind;
    intros result W; cbn [walkNode] in W; try discriminate.
  - destruct (convertCommand name prefix suffix) as [parsed|]; [|discriminate].
    destruct (isShellWrapper parsed) eqn:Wr; [|discriminate].
    destruct (reenter (nth 1 (args parsed) EmptyString)) as [inner|] eqn:R.
    + destruct (parseError inner); discriminate.
    + now exists parsed.
  - eapply walkEach_None; eassumption.
  - destruct (walkNode reenter l result) as [mid|] eqn:E; eauto.
  - eapply walkEach_None; eassumption.
  - destruct (isComplexType t); discriminate.
Qed.

Lemma walkNodes_None nodes result :
  walkNodes reenter nodes result = None -> ReentryFails reenter.
Proof.
  apply walkEach_None, Forall_forall. intros node _. apply walkNode_None.
Qed.
End BoundReached.

Lemma parseCommand_None parse fuel input :
  parseCommand parse (S fuel) input = None ->
  exists parsed,
    isShellWrapper parsed = true /\
    parseCommand parse fuel (nth 1 (args parsed) EmptyString) = None.
Proof.
  cbn [parseCommand]. destruct (isBlank input); [discriminate|].
  unfold parsePreprocessed. intros H.
  repeat match type of H with
         | context [match walkNodes ?re ?n ?w with _ => _ end] =>
             let E := fresh "E" in
             destruct (walkNodes re n w) eqn:E;
             [|exact (walkNodes_None _ _ _ E)]
         | context [match ?x with _ => _ end] => destruct x
         end; discriminate.
Qed.

(** *** The shape of a result *)

(** a parse error carries no invocation and no substitution text *)
Lemma parseCommand_error_empty parse fuel input r :
  parseCommand parse fuel input = Some r ->
  parseError r = true ->
  commands r = [] /\ subshellCommands r = [].
Proof.
  destruct fuel as [|fuel]; [discriminate|].
  cbn [parseCommand]. destruct (isBlank input).
  - intros H; inversion H; subst. discriminate.
  - unfold parsePreprocessed. intros H.
    repeat match type of H with
           | context [match ?x with _ => _ end] => destruct x
           end;
      try discriminate; inversion H; subst; cbn; intros; try discriminate;
      split; reflexivity.
Qed.

(** when the grammar refuses the preprocessed input, the result is a parse
    error or the first-line fallback with its taint *)
Lemma parseCommand_refused parse fuel input r :
  parseCommand parse fuel input = Some r ->
  isBlank input = false ->
  parse (preprocessCatHeredocs input) = None ->
  parseError r = true /\ commands r = []
  \/ Re.HEREDOC_REGEX_test (preprocessCatHeredocs input) = true
     /\ parseError r = false /\ hasSubshell r = true.
Proof.
  destruct fuel as [|fuel]; [discriminate|].
  cbn [parseCommand]. intros H B P. rewrite B in H.
  unfold parsePreprocessed in H. rewrite P in H.
  destruct (Re.HEREDOC_REGEX_test (preprocessCatHeredocs input));
    [|inversion H; subst; now left].
  repeat match type of H with
         | context [match ?x with _ => _ end] => destruct x
         end;
    try discriminate; inversion H; subst; cbn; auto.
Qed.

(** *** The table grammar meets the requirement *)

Lemma lookup_Shrink entries :
  List.forallb entryShrinks entries = true ->
  forall s ast w,
    Sample.lookup entries s = Some ast -> In w (scriptArgTexts ast) ->
    String.length w < String.length s /\ dollars w <= dollars s.
Proof.
  induction entries as [|[k v] rest IH]; intros All s ast w L I; [discriminate|].
  cbn [List.forallb] in All. apply andb_prop in All as [Here There].
  cbn [Sample.lookup] in L. destruct (String.eqb k s) eqn:E.
  - apply String.eqb_eq in E. subst k. inversion L; subst v.
    unfold entryShrinks in Here. rewrite forallb_forall in Here.
    specialize (Here w I). apply andb_prop in Here as [A B].
    split; [now apply Nat.ltb_lt | now apply Nat.leb_le].
  - eapply IH; eassumption.
Qed.

Lemma Sample_grammar_shrinks : ArgsShrink Sample.grammar.
Proof.
  unfold ArgsShrink, Sample.grammar. apply lookup_Shrink. reflexivity.
Qed.

(** ** Totality and the shape of failures *)

(** when the first line of a heredoc input is refused in turn, the result
    is a parse error *)
Lemma parseCommand_reparse_refused parse fuel input ast r :
  parseCommand parse fuel input = Some r ->
  isBlank input = false ->
  parse (preprocessCatHeredocs input) = Some ast ->
  astHasHeredoc ast = true ->
  parse (heredocCmdPart (preprocessCatHeredocs input)) = None ->
  parseError r = true /\ commands r = [].
Proof.
  destruct fuel as [|fuel]; [discriminate|].
  cbn [parseCommand]. intros H B P A P'. rewrite B in H.
  unfold parsePreprocessed in H. rewrite P, A, P' in H.
  destruct (Str.isEmpty (heredocCmdPart (preprocessCatHeredocs input)));
    inversion H; subst; now split.
Qed.

(** C1 -- with a grammar whose argument words shrink, [parseCommand]
    returns on every input once the depth bound is above the weight of the
    input.  A result that is a parse error holds no invocation.  When the
    grammar refuses the preprocessed input, the result is such a parse
    error, or the first-line fallback on a heredoc, with
    [hasSubshell = true]; when it refuses the first line of an input whose
    tree holds a heredoc redirect, the result is a parse error. *)
Theorem parseCommand_total parse :
  ArgsShrink parse ->
  forall input,
  exists r,
    parseCommand parse (S (weight input)) input = Some r /\
    (parseError r = true -> commands r = []) /\
    (isBlank input = false ->
     parse (preprocessCatHeredocs input) = None ->
     parseError r = true /\ commands r = []
     \/ Re.HEREDOC_REGEX_test (preprocessCatHeredocs input) = true
        /\ parseError r = false /\ hasSubshell r = true) /\
    (forall ast,
        isBlank input = false ->
        parse (preprocessCatHeredocs input) = Some ast ->
        astHasHeredoc ast = true ->
        parse (heredocCmdPart (preprocessCatHeredocs input)) = None ->
        parseError r = true /\ commands r = []).
Proof.
  intros Shrink input.
  destruct (parseCommand_enough_fuel parse Shrink (S (weight input)) input)
    as (r & H); [lia|].
  exists r. split; [exact H|]. split; [|split].
  - intros E. now destruct (parseCommand_error_empty _ _ _ _ H E).
  - intros B P. eapply parseCommand_refused; eassumption.
  - intros ast B P A P'. eapply parseCommand_reparse_refused; eassumption.
Qed.

Lemma parseCommand_total_witness :
  exists r,
    parseCommand Sample.grammar (S (weight Sample.in_bash_bad))
                 Sample.in_bash_bad = Some r /\
    (parseError r = true -> commands r = []) /\
    (isBlank Sample.in_bash_bad = false ->
     Sample.grammar (preprocessCatHeredocs Sample.in_bash_bad) = None ->
     parseError r = true /\ commands r = []
     \/ Re.HEREDOC_REGEX_test (preprocessCatHeredocs Sample.in_bash_bad) = true
        /\ parseError r = false /\ hasSubshell r = true) /\
    (forall ast,
        isBlank Sample.in_bash_bad = false ->
        Sample.grammar (preprocessCatHeredocs Sample.in_bash_bad) = Some ast ->
        astHasHeredoc ast = true ->
        Sample.grammar (heredocCmdPart (preprocessCatHeredocs Sample.in_bash_bad))
        = None ->
        parseError r = true /\ commands r = []).
Proof.
  apply (parseCommand_total Sample.grammar Sample_grammar_shrinks
           Sample.in_bash_bad).
Defined.

(** ** Well-foundedness of the re-entry *)

Lemma Loop_words_shrink : ArgsShrink Loop.words.
Proof.
  unfold ArgsShrink, Loop.words. apply lookup_Shrink. reflexivity.
Qed.

(** C10, as stated, fails in its reason -- the word of the re-entry need
    not be shorter than the input of [parseCommand]: the text is rewritten
    before it is parsed, and the rewriting can lengthen it.  From [sh -c]
    and three idioms, 45 characters, the grammar is handed [sh -c] and
    three placeholders, and [parseCommand] re-enters itself on a word of
    48 characters.  The call returns all the same: the length plus three
    times the number of dollar signs went down, from 54 to 48. *)
Lemma reentry_word_longer_than_input :
  Loop.words (preprocessCatHeredocs Loop.wrapped)
  = Some (Script [Sample.simple "sh" ["-c"; Loop.rewritten]]) /\
  String.length Loop.wrapped = 45 /\
  String.length Loop.rewritten = 48 /\
  parseCommand Loop.words 1 Loop.wrapped = None /\
  parseCommand Loop.words 2 Loop.wrapped
  = parseCommand Loop.words 1 Loop.rewritten /\
  parseCommand Loop.words 2 Loop.wrapped
  = Some (mkResult [ {| command := Loop.rewritten; args := [];
                        envPrefixes := []; raw := Loop.rewritten |} ]
                   false [] false) /\
  weight Loop.wrapped = 54 /\ weight Loop.rewritten = 48.
Proof. repeat split. Qed.

(** C10, amended -- when every argument word is strictly shorter than the
    parsed text and holds no more dollar signs than it, the length plus
    three times the number of dollar signs decreases at every re-entry:
    [parseCommand] returns for every depth bound above that weight of the
    input, and with the same result for all of them. *)
Theorem parseCommand_terminates parse :
  ArgsShrink parse ->
  forall input,
  exists r,
    forall fuel, weight input < fuel -> parseCommand parse fuel input = Some r.
Proof.
  intros Shrink input.
  destruct (parseCommand_enough_fuel parse Shrink (S (weight input)) input)
    as (r & H); [lia|].
  exists r. intros fuel Hf.
  eapply parseCommand_fuel_mono; [|exact H]. lia.
Qed.

Lemma parseCommand_terminates_witness :
  exists r,
    forall fuel,
      weight Sample.in_sh_ls < fuel ->
      parseCommand Sample.grammar fuel Sample.in_sh_ls = Some r.
Proof.
  apply (parseCommand_terminates Sample.grammar Sample_grammar_shrinks
           Sample.in_sh_ls).
Defined.

(** ** Command substitutions *)








(** ** Command substitutions, collected *)





(** ** Heredoc redirects in a tree that parsed *)

(** C5, as the code has it -- when the tree of the preprocessed input
    holds a heredoc redirect, the first line of that text is taken, the
    heredoc suffix is stripped and the rest trimmed.  When something is
    left, it is parsed again and the result carries [hasSubshell = true]:
    with the invocations of its walk, or as a parse error when it is
    refused.  When nothing is left, the result is a parse error without
    invocations. *)
Theorem heredoc_redirect_first_line parse fuel input ast :
  ArgsShrink parse ->
  weight input <= fuel ->
  isBlank input = false ->
  parse (preprocessCatHeredocs input) = Some ast ->
  astHasHeredoc ast = true ->
  let cmdPart := heredocCmdPart (preprocessCatHeredocs input) in
  exists r,
    parseCommand parse (S fuel) input = Some r /\
    (Str.isEmpty cmdPart = true -> parseError r = true /\ commands r = []) /\
    (Str.isEmpty cmdPart = false ->
     hasSubshell r = true /\
     match parse cmdPart with
     | Some cmdAst =>
         exists result,
           walkNodes (parseCommand parse fuel) (script_commands cmdAst) emptyWalk
           = Some result /\
           r = mkResult (wr_commands result) true (wr_subshellCommands result)
                        false
     | None => r = mkResult [] true [] true
     end).
Proof.
  intros Shrink Hw B P H cmdPart.
  destruct (parseCommand_enough_fuel parse Shrink (S fuel) input) as (r & R);
    [lia|].
  exists r. split; [exact R|].
  cbn [parseCommand] in R. rewrite B in R.
  unfold parsePreprocessed in R. rewrite P, H in R. fold cmdPart in R.
  split; intros E; rewrite E in R.
  - now inversion R.
  - destruct (parse cmdPart) as [cmdAst|].
    + destruct (walkNodes (parseCommand parse fuel) (script_commands cmdAst)
                          emptyWalk) as [result|]; [|discriminate].
      inversion R; subst. split; [reflexivity|]. now exists result.
    + inversion R; subst. now split.
Qed.

Lemma heredoc_redirect_first_line_witness :
  let cmdPart := heredocCmdPart (preprocessCatHeredocs Sample.in_heredoc) in
  exists r,
    parseCommand Sample.grammar (S (weight Sample.in_heredoc)) Sample.in_heredoc
    = Some r /\
    (Str.isEmpty cmdPart = true -> parseError r = true /\ commands r = []) /\
    (Str.isEmpty cmdPart = false ->
     hasSubshell r = true /\
     match Sample.grammar cmdPart with
     | Some cmdAst =>
         exists result,
           walkNodes (parseCommand Sample.grammar (weight Sample.in_heredoc))
                     (script_commands cmdAst) emptyWalk
           = Some result /\
           r = mkResult (wr_commands result) true (wr_subshellCommands result)
                        false
     | None => r = mkResult [] true [] true
     end).
Proof.
  apply (heredoc_redirect_first_line Sample.grammar (weight Sample.in_heredoc)
           Sample.in_heredoc Sample.t_heredoc).
  - exact Sample_grammar_shrinks.
  - apply le_n.
  - reflexivity.
  - reflexivity.
  - reflexivity.
Defined.

(** C5, as stated, fails -- the tree of an input whose heredoc command
    stands on the second line holds a heredoc redirect; the first line is
    empty, nothing is parsed again, and the result is a parse error with
    [hasSubshell = false]. *)
Lemma heredoc_empty_first_line :
  Sample.grammar (preprocessCatHeredocs Sample.in_heredoc_line2)
  = Some Sample.t_heredoc /\
  astHasHeredoc Sample.t_heredoc = true /\
  heredocCmdPart (preprocessCatHeredocs Sample.in_heredoc_line2) = EmptyString /\
  parseCommand Sample.grammar 1 Sample.in_heredoc_line2
  = Some (mkResult [] false [] true).
Proof. repeat split. Qed.

(** the sibling path: the same first line after a refused parse *)
Example heredoc_empty_first_line_refused :
  let input := Sample.nl ++ "cat <<EOF" in
  Sample.grammar (preprocessCatHeredocs input) = None /\
  heredocCmdPart (preprocessCatHeredocs input) = EmptyString /\
  parseCommand Sample.grammar 1 input = Some (mkResult [] true [] true).
Proof. repeat split. Qed.

(** ** The cat-heredoc idiom *)

(** *** The character classes that follow one another never overlap *)

Ltac by_cases_on c :=
  destruct c as [[] [] [] [] [] [] [] []]; vm_compute; congruence.

Lemma word_not_space c : isWordChar c = true -> isSpace c = false.
Proof. by_cases_on c. Qed.

Lemma word_not_quote c : isWordChar c = true -> isQuote c = false.
Proof. by_cases_on c. Qed.

Lemma word_not_dash c : isWordChar c = true -> Re.isDash c = false.
Proof. by_cases_on c. Qed.

Lemma quote_not_space c : isQuote c = true -> isSpace c = false.
Proof. by_cases_on c. Qed.

Lemma quote_not_dash c : isQuote c = true -> Re.isDash c = false.
Proof. by_cases_on c. Qed.

Lemma quote_not_word c : isQuote c = true -> isWordChar c = false.
Proof. by_cases_on c. Qed.

Lemma space_not_dash c : isSpace c = true -> Re.isDash c = false.
Proof. by_cases_on c. Qed.

Lemma space_not_paren c : isSpace c = true -> Ascii.eqb c ")" = false.
Proof. by_cases_on c. Qed.

Lemma word_not_paren c : isWordChar c = true -> Ascii.eqb c ")" = false.
Proof. by_cases_on c. Qed.

(** *** The scan follows the pieces of an occurrence *)

Lemma stripPrefix_here lit r : Str.stripPrefix lit (lit ++ r) = Some r.
Proof.
  induction lit as [|a lit IH]; cbn; [reflexivity|].
  now rewrite Ascii.eqb_refl.
Qed.

Lemma startsWith_skip (p q : ascii -> bool) a b :
  (forall c, q c = true -> p c = false) ->
  Str.forallb q a = true -> Re.startsWith p b = false ->
  Re.startsWith p (a ++ b) = false.
Proof.
  intros Ex A B. destruct a as [|c a]; cbn in *; [exact B|].
  apply andb_prop in A as [A _]. now apply Ex.
Qed.

Lemma startsWith_first (p q : ascii -> bool) a b :
  (forall c, q c = true -> p c = false) ->
  Str.forallb q a = true -> a <> EmptyString ->
  Re.startsWith p (a ++ b) = false.
Proof.
  intros Ex A NE. destruct a as [|c a]; [contradiction|]. cbn in *.
  apply andb_prop in A as [A _]. now apply Ex.
Qed.

Lemma dropWhile_run p run r :
  Str.forallb p run = true -> Re.startsWith p r = false ->
  Str.dropWhile p (run ++ r) = r.
Proof.
  induction run as [|c run IH]; cbn; intros A B.
  - destruct r as [|x r]; cbn in *; [reflexivity | now rewrite B].
  - apply andb_prop in A as [A A']. rewrite A. now apply IH.
Qed.

Lemma takeWhile_run p run r :
  Str.forallb p run = true -> Re.startsWith p r = false ->
  Str.takeWhile p (run ++ r) = run.
Proof.
  induction run as [|c run IH]; cbn; intros A B.
  - destruct r as [|x r]; cbn in *; [reflexivity | now rewrite B].
  - apply andb_prop in A as [A A']. rewrite A. now rewrite IH.
Qed.

Lemma OptQuote_forallb q : OptQuote q -> Str.forallb isQuote q = true.
Proof. intros [-> | (c & Hc & ->)]; cbn; [reflexivity | now rewrite Hc]. Qed.

Lemma OptDash_forallb d : OptDash d -> Str.forallb Re.isDash d = true.
Proof. intros [-> | ->]; reflexivity. Qed.

Lemma dropOpt_here p opt r :
  opt = EmptyString \/ (exists c, p c = true /\ opt = String c EmptyString) ->
  Re.startsWith p r = false ->
  Str.dropOpt p (opt ++ r) = r.
Proof.
  intros [-> | (c & Hc & ->)] B; cbn.
  - destruct r as [|x r]; cbn in *; [reflexivity | now rewrite B].
  - now rewrite Hc.
Qed.

Lemma OptDash_cases d :
  OptDash d ->
  d = EmptyString \/ (exists c, Re.isDash c = true /\ d = String c EmptyString).
Proof. intros [-> | ->]; [now left | right; now exists "-"%char]. Qed.

(** the operator, the optional dash, the spaces and the optional quote are
    passed; the marker is next *)
Lemma heredocOperator_scan d ws q m r :
  OptDash d -> Spaces ws -> OptQuote q -> WordChars m -> m <> EmptyString ->
  Re.heredocOperator ("<<" ++ d ++ ws ++ q ++ m ++ r) = Some (m ++ r).
Proof.
  intros D W Q M NE. unfold Re.heredocOperator.
  change ("<<" ++ d ++ ws ++ q ++ m ++ r)
    with ("<<" ++ (d ++ ws ++ q ++ m ++ r)).
  rewrite stripPrefix_here. f_equal.
  assert (Sm : forall p, (forall c, isWordChar c = true -> p c = false) ->
                         Re.startsWith p (m ++ r) = false).
  { intros p Ex. now apply startsWith_first with (q := isWordChar). }
  assert (Sq : forall p, (forall c, isWordChar c = true -> p c = false) ->
                         (forall c, isQuote c = true -> p c = false) ->
                         Re.startsWith p (q ++ m ++ r) = false).
  { intros p Ex1 Ex2. apply startsWith_skip with (q := isQuote); auto.
    now apply OptQuote_forallb. }
  rewrite dropOpt_here.
  - rewrite dropWhile_run; [|exact W|].
    + apply dropOpt_here; [exact Q|]. apply Sm, word_not_quote.
    + apply Sq; [apply word_not_space | apply quote_not_space].
  - now apply OptDash_cases.
  - apply startsWith_skip with (q := isSpace);
      [apply space_not_dash | exact W |].
    apply Sq; [apply word_not_dash | apply quote_not_dash].
Qed.

Lemma closeAt_here m ws post :
  Spaces ws ->
  Re.closeAt m (String LF (m ++ ws ++ ")" ++ post)) = Some post.
Proof.
  intros W. unfold Re.closeAt.
  change (String LF (m ++ ws ++ ")" ++ post))
    with (String LF m ++ (ws ++ ")" ++ post)).
  rewrite stripPrefix_here. rewrite dropWhile_run; [reflexivity | exact W |].
  reflexivity.
Qed.

(** what [closeAt] passes is the closing sequence *)
Lemma closeAt_shape m s r :
  Re.closeAt m s = Some r ->
  exists ws, Spaces ws /\ s = String LF m ++ ws ++ ")" ++ r.
Proof.
  unfold Re.closeAt.
  destruct (Str.stripPrefix (String LF m) s) as [r0|] eqn:E; [|discriminate].
  apply stripPrefix_append in E.
  destruct (Str.dropWhile isSpace r0) as [|c r'] eqn:D; [discriminate|].
  destruct (Ascii.eqb c ")") eqn:P; [|discriminate].
  intros H; injection H as <-. apply Ascii.eqb_eq in P. subst c.
  exists (Str.takeWhile isSpace r0). split.
  - clear. unfold Spaces. induction r0 as [|x r0 IH]; cbn; [reflexivity|].
    destruct (isSpace x) eqn:X; cbn; [now rewrite X | reflexivity].
  - rewrite E. f_equal.
    rewrite <- (takeWhile_dropWhile isSpace r0) at 1. now rewrite D.
Qed.

(** two readings of one text up to a closing parenthesis: the one whose
    head holds no parenthesis stops first *)
Lemma first_paren u : forall v r post,
  noParen u -> u ++ ")" ++ r = v ++ ")" ++ post ->
  exists tail, r = tail ++ post.
Proof.
  induction u as [|x u IH]; intros v r post N E.
  - destruct v as [|y v]; cbn in E.
    + injection E as ->. now exists EmptyString.
    + injection E as _ ->. exists (v ++ ")"). now rewrite append_assoc.
  - unfold noParen in N. cbn in N. apply orb_false_iff in N as [Nx Nu].
    destruct v as [|y v]; cbn in E.
    + injection E as -> _. discriminate.
    + injection E as _ E. eapply IH; eassumption.
Qed.

Lemma noParen_closing m ws :
  WordChars m -> Spaces ws -> noParen (String LF m ++ ws).
Proof.
  intros M W. unfold noParen. cbn. rewrite existsb_append.
  assert (A : forall q s, (forall c, q c = true -> Ascii.eqb c ")" = false) ->
                          Str.forallb q s = true ->
                          Str.existsb (fun c => Ascii.eqb c ")") s = false).
  { intros q s Ex. induction s as [|c s IH]; cbn; [reflexivity|].
    intros H. apply andb_prop in H as [Hc Hs].
    now rewrite (Ex _ Hc), IH. }
  rewrite (A isWordChar m word_not_paren M), (A isSpace ws space_not_paren W).
  reflexivity.
Qed.

Lemma findClose_cons m c s :
  Re.findClose m (String c s) =
  match Re.closeAt m (String c s) with
  | Some r => Some r
  | None => Re.findClose m s
  end.
Proof. reflexivity. Qed.

(** the lazy body stops at the first closing sequence, at the latest where
    the occurrence closes *)
Lemma findClose_finds m ws post :
  WordChars m -> Spaces ws ->
  forall body,
  exists tail,
    Re.findClose m (body ++ String LF (m ++ ws ++ ")" ++ post))
    = Some (tail ++ post).
Proof.
  intros M W body. set (closing := String LF (m ++ ws ++ ")" ++ post)).
  induction body as [|c body IH].
  - exists EmptyString. change (EmptyString ++ closing) with closing.
    unfold closing at 1. rewrite findClose_cons. fold closing.
    unfold closing. now rewrite closeAt_here.
  - destruct IH as (tail & IH).
    change (String c body ++ closing) with (String c (body ++ closing)).
    rewrite findClose_cons.
    destruct (Re.closeAt m (String c (body ++ closing))) as [r|] eqn:C;
      [|now exists tail].
    apply closeAt_shape in C as (ws' & W' & E).
    destruct (first_paren (String LF m ++ ws')
                (String c body ++ String LF m ++ ws) r post) as (t & ->).
    + now apply noParen_closing.
    + transitivity (String c (body ++ closing)).
      * rewrite append_assoc. now symmetry.
      * unfold closing. now rewrite !append_assoc.
    + now exists t.
Qed.

(** the text of an occurrence with [post] after it, bracketed to the right *)
Lemma idiomText_append p post :
  idiomText p ++ post =
  "$(cat" ++ (ws1 p ++ ("<<" ++ dash p ++ ws2 p ++ q1 p ++ marker p
     ++ (q2 p ++ String LF (body p
           ++ String LF (marker p ++ ws3 p ++ ")" ++ post))))).
Proof.
  unfold idiomText.
  rewrite !append_assoc. cbn [append].
  rewrite !append_assoc. cbn [append].
  rewrite !append_assoc. reflexivity.
Qed.

(** the expression matches where an occurrence starts; the match ends at
    the first closing sequence, which leaves a last part [tail] of the
    occurrence when its body holds a closing sequence of its own *)
Lemma catHeredocAt_scan p post :
  WellFormed p ->
  exists tail, Re.catHeredocAt (idiomText p ++ post) = Some (tail ++ post).
Proof.
  intros (NE1 & W1 & D & W2 & Q1 & NEm & M & Q2 & W3).
  rewrite idiomText_append. unfold Re.catHeredocAt.
  rewrite stripPrefix_here.
  assert (S1 : Re.startsWith isSpace
                 (ws1 p ++ ("<<" ++ dash p ++ ws2 p ++ q1 p ++ marker p
                    ++ (q2 p ++ String LF (body p
                          ++ String LF (marker p ++ ws3 p ++ ")" ++ post)))))
               = true).
  { destruct (ws1 p) as [|c w]; [contradiction|]. cbn in *.
    now apply andb_prop in W1 as [-> _]. }
  rewrite S1. rewrite dropWhile_run; [|exact W1|reflexivity].
  rewrite heredocOperator_scan; try assumption.
  assert (S3 : forall rest,
             Re.startsWith isWordChar (q2 p ++ String LF rest) = false).
  { intros rest. apply startsWith_skip with (q := isQuote);
      [apply quote_not_word | now apply OptQuote_forallb | reflexivity]. }
  rewrite takeWhile_run, dropWhile_run; try assumption; try apply S3.
  destruct (marker p) as [|c m] eqn:Em; [contradiction|].
  cbn [Str.isEmpty]. rewrite dropOpt_here; [|exact Q2|reflexivity].
  replace (isLF LF) with true by reflexivity.
  apply findClose_finds; assumption.
Qed.

(** *** The replacement *)

Lemma preprocess_before pre rest :
  NoMatchWithin pre rest ->
  preprocessCatHeredocs (pre ++ rest) = pre ++ preprocessCatHeredocs rest.
Proof.
  induction pre as [|c pre IH]; intros N; [reflexivity|].
  rewrite preprocessCatHeredocs_step.
  rewrite (N EmptyString (String c pre) eq_refl); [|discriminate].
  cbn [append]. f_equal. apply IH.
  intros a b E NE. apply (N (String c a) b); [now rewrite E | exact NE].
Qed.

(** a text without a dollar sign holds no start of a match *)
Lemma no_dollar_NoMatchWithin pre rest : dollars pre = 0 -> NoMatchWithin pre rest.
Proof.
  intros Z a b -> NE. destruct b as [|c b]; [contradiction|].
  unfold dollars in Z. rewrite count_append in Z. cbn [Str.count] in Z.
  unfold Re.catHeredocAt.
  change (String c b ++ rest) with (String c (b ++ rest)).
  cbn [Str.stripPrefix].
  destruct (isDollar c) eqn:E; [lia|]. unfold isDollar in E.
  rewrite Ascii.eqb_sym in E. now rewrite E.
Qed.

(** ** The built-in rule for [rm] *)

Example regex_samples :
  Rx.search Defaults.re_rm_recursive_force "rm -rf x" = true /\
  Rx.search Defaults.re_rm_recursive_force "rm -fr x" = true /\
  Rx.search Defaults.re_rm_recursive_force "rm -r -f x" = false /\
  Rx.search Defaults.re_rm_recursive "rm -r x" = true /\
  Rx.search Defaults.re_rm_recursive "rm a.txt" = false /\
  Rx.fullmatch Defaults.re_version_help "--help" = true /\
  Rx.fullmatch Defaults.re_v_h "-x" = false /\
  Rx.search (Rx.seq [Rx.Lit "push"; Defaults.sp_plus; Rx.Lit "-f"; Rx.WordBoundary])
            "git push -f origin" = true /\
  Rx.search (Rx.seq [Rx.Lit "push"; Defaults.sp_plus; Rx.Lit "-f"; Rx.WordBoundary])
            "git push -foo" = false.
Proof. repeat split. Qed.

Example rm_invocations :
  convertCommand (Some (Sample.plain "rm")) []
                 [Word (Sample.plain "-rf"); Word (Sample.plain "x")]
  = Some rm_rf_x /\
  convertCommand (Some (Sample.plain "rm")) [] [Word (Sample.plain "a.txt")]
  = Some rm_file.
Proof. split; reflexivity. Qed.





(** * Further properties of the parser *)

(** ** Blank input *)

Lemma trimEnd_spaces s : Str.forallb isSpace s = true -> Str.trimEnd s = EmptyString.
Proof.
  induction s as [|c s IH]; cbn; [reflexivity|].
  intros H. apply andb_prop in H as [Hc Hs]. now rewrite (IH Hs), Hc.
Qed.

Lemma dropWhile_all p s : Str.forallb p s = true -> Str.dropWhile p s = EmptyString.
Proof.
  induction s as [|c s IH]; cbn; [reflexivity|].
  intros H. apply andb_prop in H as [Hc Hs]. rewrite Hc. now apply IH.
Qed.

Lemma forallb_dropWhile p s :
  Str.forallb p s = Str.isEmpty (Str.dropWhile p s).
Proof.
  induction s as [|c s IH]; cbn; [reflexivity|].
  destruct (p c); cbn; [exact IH | reflexivity].
Qed.

Lemma trimEnd_empty s :
  Str.trimEnd s = EmptyString -> Str.forallb isSpace s = true.
Proof.
  induction s as [|c s IH]; cbn; [reflexivity|].
  destruct (Str.trimEnd s) as [|x r]; cbn.
  - destruct (isSpace c); [intros _; now rewrite IH | discriminate].
  - discriminate.
Qed.

Lemma isBlank_spaces input : isBlank input = Str.forallb isSpace input.
Proof.
  unfold isBlank, Str.trim, Str.trimStart.
  rewrite forallb_dropWhile.
  destruct (Str.dropWhile isSpace input) as [|c r] eqn:D; [reflexivity|].
  cbn [Str.isEmpty].
  destruct (Str.isEmpty (Str.trimEnd (String c r))) eqn:E; [|reflexivity].
  assert (T : Str.trimEnd (String c r) = EmptyString)
    by (destruct (Str.trimEnd (String c r)); [reflexivity | discriminate]).
  apply trimEnd_empty in T. cbn in T. apply andb_prop in T as [Hc _].
  (* the first character left by trimStart is no space *)
  assert (N : isSpace c = false).
  { clear - D. induction input as [|x input IH]; cbn in D; [discriminate|].
    destruct (isSpace x) eqn:X; [now apply IH|]. now inversion D; subst. }
  congruence.
Qed.

(** X1 -- an input made of whitespace only (the empty input included) gives
    the empty result without error, whatever the grammar: the grammar is
    not consulted; any other input goes through the preprocessing to the
    grammar. *)
Theorem blank_input_empty_result parse fuel input :
  (Str.forallb isSpace input = true ->
   parseCommand parse (S fuel) input = Some (mkResult [] false [] false)) /\
  (Str.forallb isSpace input = false ->
   parseCommand parse (S fuel) input
   = parsePreprocessed parse (parseCommand parse fuel)
       (preprocessCatHeredocs input)).
Proof.
  cbn [parseCommand]. rewrite isBlank_spaces.
  split; intros ->; reflexivity.
Qed.

(** ** The accumulator only grows *)

(** X2 -- [walkNode] only adds to its accumulator: the invocations and the
    substitution texts collected so far stay, in order, at the head of the
    new lists, and a taint that was set stays set. *)
Theorem walkNode_only_adds reenter node result result' :
  walkNode reenter node result = Some result' ->
  (exists more, wr_commands result' = (wr_commands result ++ more)%list) /\
  (exists more,
      wr_subshellCommands result' = (wr_subshellCommands result ++ more)%list) /\
  (wr_hasSubshell result = true -> wr_hasSubshell result' = true).
Proof.
  intros W.
  refine (walkNode_invariant reenter
            (fun r' =>
               (exists more, wr_commands r' = (wr_commands result ++ more)%list) /\
               (exists more, wr_subshellCommands r'
                             = (wr_subshellCommands result ++ more)%list) /\
               (wr_hasSubshell result = true -> wr_hasSubshell r' = true))
            _ _ _ _ node result result' W _).
  - intros r ((m1 & E1) & (m2 & E2) & T). cbn. eauto.
  - intros es r ((m1 & E1) & (m2 & E2) & T). unfold pushExpansions.
    destruct (0 <? List.length es); cbn; [|eauto].
    repeat split; eauto.
    exists (m2 ++ es)%list. now rewrite E2, app_assoc.
  - intros name prefix suffix parsed r _ ((m1 & E1) & (m2 & E2) & T). cbn.
    repeat split; eauto.
    exists (m1 ++ [parsed])%list. now rewrite E1, app_assoc.
  - intros script inner r _ _ ((m1 & E1) & (m2 & E2) & T). cbn.
    repeat split.
    + exists (m1 ++ commands inner)%list. now rewrite E1, app_assoc.
    + exists (m2 ++ subshellCommands inner)%list. now rewrite E2, app_assoc.
    + intros H. rewrite (T H). now destruct (hasSubshell inner).
  - repeat split; try (exists []; now rewrite app_nil_r). auto.
Qed.

Lemma walkNode_only_adds_witness :
  (exists more,
      wr_commands
        {| wr_commands := [sample_ls_invocation;
                           {| command := "echo"; args := ["$(whoami)"];
                              envPrefixes := []; raw := "echo $(whoami)" |}];
           wr_hasSubshell := true;
           wr_subshellCommands := ["date"; "whoami"] |}
      = (wr_commands walked_sample ++ more)%list) /\
  (exists more,
      wr_subshellCommands
        {| wr_commands := [sample_ls_invocation;
                           {| command := "echo"; args := ["$(whoami)"];
                              envPrefixes := []; raw := "echo $(whoami)" |}];
           wr_hasSubshell := true;
           wr_subshellCommands := ["date"; "whoami"] |}
      = (wr_subshellCommands walked_sample ++ more)%list) /\
  (wr_hasSubshell walked_sample = true ->
   wr_hasSubshell
     {| wr_commands := [sample_ls_invocation;
                        {| command := "echo"; args := ["$(whoami)"];
                           envPrefixes := []; raw := "echo $(whoami)" |}];
        wr_hasSubshell := true;
        wr_subshellCommands := ["date"; "whoami"] |} = true).
Proof.
  apply (walkNode_only_adds (fun _ => None)
           (Command (Some (Sample.plain "echo")) []
                    [Word (Sample.substituted "$(whoami)" "whoami")])
           walked_sample).
  reflexivity.
Defined.

(** ** A listed substitution means a tainted result *)

Lemma parseCommand_listed_tainted parse fuel :
  forall input r,
    parseCommand parse fuel input = Some r ->
    hasSubshell r = false -> subshellCommands r = [].
Proof.
  induction fuel as [|fuel IH]; intros input r H; [discriminate|].
  cbn [parseCommand] in H.
  destruct (isBlank input); [inversion H; subst; reflexivity|].
  set (reenter := parseCommand parse fuel) in *.
  assert (Walk : forall nodes result,
             walkNodes reenter nodes emptyWalk = Some result ->
             wr_hasSubshell result = false -> wr_subshellCommands result = []).
  { intros nodes result W.
    refine (walkNodes_invariant reenter
              (fun res => wr_hasSubshell res = false ->
                          wr_subshellCommands res = [])
              _ _ _ _ nodes emptyWalk result W _); cbn.
    - discriminate.
    - intros es res HQ. unfold pushExpansions.
      destruct (0 <? List.length es); cbn; [discriminate | exact HQ].
    - auto.
    - intros script inner res R _ HQ.
      destruct (hasSubshell inner) eqn:Hi; [discriminate|].
      intros Hr. now rewrite (HQ Hr), (IH script inner R Hi).
    - reflexivity. }
  unfold parsePreprocessed in H.
  repeat match type of H with
         | context [match walkNodes reenter ?n ?w with _ => _ end] =>
             let E := fresh "E" in
             destruct (walkNodes reenter n w) eqn:E
         | context [match ?x with _ => _ end] => destruct x
         end;
    try discriminate; inversion H; subst; cbn; try discriminate; eauto.
Qed.

(** X3 -- in every result of [parseCommand], at every depth of re-entry,
    a substitution text is listed only when the taint is set: a result
    with [hasSubshell = false] has an empty [subshellCommands]. *)
Theorem listed_substitution_taints parse fuel input r inner :
  parseCommand parse fuel input = Some r ->
  In inner (subshellCommands r) ->
  hasSubshell r = true.
Proof.
  intros H I. destruct (hasSubshell r) eqn:T; [reflexivity|].
  rewrite (parseCommand_listed_tainted parse fuel input r H T) in I.
  contradiction.
Qed.

Lemma listed_substitution_taints_witness :
  hasSubshell (mkResult [ {| command := "echo"; args := ["$(whoami)"];
                             envPrefixes := []; raw := "echo $(whoami)" |} ]
                        true ["whoami"] false) = true.
Proof.
  apply (listed_substitution_taints Sample.grammar 1 Sample.in_echo_sub _ "whoami").
  - reflexivity.
  - left. reflexivity.
Defined.

(** ** Trees without shell wrappers *)

Lemma pushExpansions_fields es result :
  pushExpansions es result =
  {| wr_commands := wr_commands result;
     wr_hasSubshell := wr_hasSubshell result || (0 <? List.length es);
     wr_subshellCommands := (wr_subshellCommands result ++ es)%list |}.
Proof.
  unfold pushExpansions. destruct es as [|e es]; cbn.
  - rewrite orb_false_r, app_nil_r. now destruct result.
  - now rewrite orb_true_r.
Qed.

Lemma conversions_app a b :
  conversions (a ++ b) = (conversions a ++ conversions b)%list.
Proof. unfold conversions. apply flat_map_app. Qed.

Lemma walkedOver_cons node rest result :
  walkedOver rest (walkedOver [node] result) = walkedOver (node :: rest) result.
Proof.
  unfold walkedOver. cbn [flat_map List.existsb wr_commands wr_hasSubshell
                          wr_subshellCommands].
  rewrite !app_nil_r, orb_false_r, conversions_app, !flat_map_app.
  now rewrite !app_assoc, orb_assoc.
Qed.

Lemma walkedOver_nil result : walkedOver [] result = result.
Proof.
  unfold walkedOver. cbn. rewrite !app_nil_r, orb_false_r. now destruct result.
Qed.

Lemma walkEach_without_wrappers reenter nodes :
  Forall (fun node => wrapperFree node = true ->
                      forall result,
                        walkNode reenter node result
                        = Some (walkedOver [node] result)) nodes ->
  List.forallb wrapperFree nodes = true ->
  forall result,
    walkEach (walkNode reenter) nodes result = Some (walkedOver nodes result).
Proof.
  induction 1 as [|node rest Hnode _ IH]; intros F result; cbn.
  - now rewrite walkedOver_nil.
  - cbn in F. apply andb_prop in F as [Fn Fr].
    rewrite (Hnode Fn). rewrite (IH Fr). now rewrite walkedOver_cons.
Qed.

Lemma wrapperFree_flat_map nodes :
  List.forallb (fun c => negb (isWrapperNode c)) (flat_map walkedCommands nodes)
  = List.forallb wrapperFree nodes.
Proof.
  induction nodes as [|n rest IH]; cbn; [reflexivity|].
  now rewrite forallb_app, IH.
Qed.

Lemma walkedOver_list cmds result :
  walkedOver cmds result =
  {| wr_commands :=
       (wr_commands result ++ conversions (flat_map walkedCommands cmds))%list;
     wr_hasSubshell := wr_hasSubshell result || List.existsb taints cmds;
     wr_subshellCommands :=
       (wr_subshellCommands result
        ++ flat_map collectCommandExpansions (flat_map walkedCommands cmds))%list |}.
Proof. reflexivity. Qed.

Lemma walkedOver_one node result :
  walkedOver [node] result =
  {| wr_commands := (wr_commands result ++ conversions (walkedCommands node))%list;
     wr_hasSubshell := wr_hasSubshell result || taints node;
     wr_subshellCommands :=
       (wr_subshellCommands result
        ++ flat_map collectCommandExpansions (walkedCommands node))%list |}.
Proof.
  unfold walkedOver. cbn [flat_map List.existsb].
  now rewrite !app_nil_r, orb_false_r.
Qed.

Lemma walkedOver_same result :
  {| wr_commands := (wr_commands result ++ [])%list;
     wr_hasSubshell := wr_hasSubshell result || false;
     wr_subshellCommands := (wr_subshellCommands result ++ [])%list |} = result.
Proof. rewrite !app_nil_r, orb_false_r. now destruct result. Qed.

Lemma walkedOver_taint nodes result :
  walkedOver nodes (taint result) =
  {| wr_commands :=
       (wr_commands result ++ conversions (flat_map walkedCommands nodes))%list;
     wr_hasSubshell := wr_hasSubshell result || true;
     wr_subshellCommands :=
       (wr_subshellCommands result
        ++ flat_map collectCommandExpansions (flat_map walkedCommands nodes))%list |}.
Proof. unfold walkedOver, taint. cbn. now rewrite orb_true_r. Qed.

Lemma walkNode_without_wrappers reenter node :
  wrapperFree node = true ->
  forall result,
    walkNode reenter node result = Some (walkedOver [node] result).
Proof.
  induction node as
    [name prefix suffix _ _ | w | t | cmds IH | op l r IHl IHr
    | cmds IH | | t children _] using AstNode_nested_ind;
    intros F result; rewrite walkedOver_one.
  - unfold wrapperFree in F. cbn [walkedCommands List.forallb isWrapperNode] in F.
    rewrite andb_true_r in F. apply negb_true_iff in F.
    cbn [walkNode walkedCommands conversions flat_map taints].
    rewrite !app_nil_r, pushExpansions_fields.
    destruct (convertCommand name prefix suffix) as [parsed|].
    + rewrite F. reflexivity.
    + cbn [wr_commands]. now rewrite app_nil_r.
  - cbn. now rewrite walkedOver_same.
  - cbn. now rewrite walkedOver_same.
  - cbn [walkNode]. unfold wrapperFree in F. cbn [walkedCommands] in F.
    rewrite wrapperFree_flat_map in F.
    rewrite (walkEach_without_wrappers reenter cmds IH F). reflexivity.
  - cbn [walkNode]. unfold wrapperFree in F. cbn [walkedCommands] in F.
    rewrite forallb_app in F. apply andb_prop in F as [Fl Fr].
    rewrite (IHl Fl), (IHr Fr), !walkedOver_one.
    cbn [walkedCommands taints wr_commands wr_hasSubshell wr_subshellCommands].
    rewrite conversions_app, flat_map_app.
    now rewrite !app_assoc, orb_assoc.
  - cbn [walkNode]. unfold wrapperFree in F. cbn [walkedCommands] in F.
    rewrite wrapperFree_flat_map in F.
    rewrite (walkEach_without_wrappers reenter cmds IH F).
    now rewrite walkedOver_taint.
  - cbn. now rewrite !app_nil_r, orb_true_r.
  - cbn [walkNode walkedCommands taints conversions flat_map].
    destruct (isComplexType t).
    + unfold taint. now rewrite !app_nil_r, orb_true_r.
    + now rewrite walkedOver_same.
Qed.



(** ** The cat-heredoc idiom and the result *)

Lemma forallb_after p (a b : string) :
  Str.forallb p b = false -> Str.forallb p (a ++ b) = false.
Proof.
  intros H. induction a as [|c a IH]; cbn; [exact H|].
  rewrite IH. apply andb_false_r.
Qed.

(** a text that holds the idiom is not blank *)
Lemma idiom_not_blank pre p post :
  isBlank (pre ++ idiomText p ++ post) = false.
Proof.
  rewrite isBlank_spaces. apply forallb_after.
  rewrite idiomText_append. reflexivity.
Qed.

Lemma untainted_node_no_texts node :
  taints node = false ->
  flat_map collectCommandExpansions (walkedCommands node) = [].
Proof.
  induction node as
    [name prefix suffix _ _ | w | t | cmds IH | op l r IHl IHr
    | cmds IH | | t children _] using AstNode_nested_ind;
    cbn [taints walkedCommands]; intros T; try reflexivity; try discriminate.
  - cbn [flat_map]. rewrite app_nil_r.
    destruct (collectCommandExpansions (Command name prefix suffix));
      [reflexivity | discriminate].
  - induction IH as [|c cmds Hc _ IHc]; [reflexivity|].
    cbn [List.existsb] in T. apply orb_false_elim in T as [Tc Tr].
    cbn [flat_map]. now rewrite flat_map_app, (Hc Tc), (IHc Tr).
  - apply orb_false_elim in T as [Tl Tr].
    now rewrite flat_map_app, (IHl Tl), (IHr Tr).
Qed.

Lemma untainted_no_texts nodes :
  List.existsb taints nodes = false ->
  flat_map collectCommandExpansions (flat_map walkedCommands nodes) = [].
Proof.
  induction nodes as [|n nodes IH]; [reflexivity|].
  cbn [List.existsb flat_map]. intros T.
  apply orb_false_elim in T as [Tn Tr].
  now rewrite flat_map_app, (untainted_node_no_texts n Tn), (IH Tr).
Qed.

(** C7 -- where the scan reaches an occurrence of the idiom
    [$(cat <<MARKER ... MARKER)], the preprocessing puts the placeholder
    [__HEREDOC_TEXT__] in its place, up to its first closing sequence, and
    goes on after it; the placeholder holds no dollar sign.  The grammar is
    handed the rewritten text, and the result is that of the tree it makes
    of it: when the tree holds no heredoc redirect and no shell wrapper,
    the result is no parse error, its invocations are those of the tree,
    and it is tainted by what the tree shows and by nothing else.  The
    replaced substitution is not in that text any more: a tree without a
    subshell, a control-flow construct or a substitution of its own gives
    [hasSubshell = false] and no substitution text. *)
Theorem cat_heredoc_rewritten parse fuel pre p post :
  WellFormed p ->
  NoMatchWithin pre (idiomText p ++ post) ->
  let input := pre ++ idiomText p ++ post in
  exists tail,
    let text :=
      pre ++ "__HEREDOC_TEXT__" ++ preprocessCatHeredocs (tail ++ post) in
    String.length tail + 13 <= String.length (idiomText p) /\
    preprocessCatHeredocs input = text /\
    dollars "__HEREDOC_TEXT__" = 0 /\
    forall ast,
      parse text = Some ast ->
      astHasHeredoc ast = false ->
      List.forallb wrapperFree (script_commands ast) = true ->
      let reached := flat_map walkedCommands (script_commands ast) in
      parseCommand parse (S fuel) input
      = Some (mkResult (conversions reached)
                       (List.existsb taints (script_commands ast))
                       (flat_map collectCommandExpansions reached)
                       false)
      /\ (List.existsb taints (script_commands ast) = false ->
          parseCommand parse (S fuel) input
          = Some (mkResult (conversions reached) false [] false)).
Proof.
  intros WF N input.
  destruct (catHeredocAt_scan p post WF) as (tail & C).
  assert (E : preprocessCatHeredocs input
              = pre ++ "__HEREDOC_TEXT__" ++ preprocessCatHeredocs (tail ++ post)).
  { unfold input. rewrite (preprocess_before _ _ N).
    rewrite (preprocessCatHeredocs_step (idiomText p ++ post)), C.
    reflexivity. }
  exists tail. cbv zeta. split; [|split; [exact E|split; [reflexivity|]]].
  - apply catHeredocAt_Suffix in C as (s' & Es & Sf).
    apply Suffix_length in Sf.
    assert (L : String.length (idiomText p ++ post) = 1 + String.length s')
      by now rewrite Es.
    rewrite !length_append in *. lia.
  - intros ast P H F.
    assert (R : parseCommand parse (S fuel) input
                = Some (mkResult
                          (conversions
                             (flat_map walkedCommands (script_commands ast)))
                          (List.existsb taints (script_commands ast))
                          (flat_map collectCommandExpansions
                             (flat_map walkedCommands (script_commands ast)))
                          false)).
    { cbn [parseCommand]. unfold input at 1. rewrite idiom_not_blank.
      rewrite E. unfold parsePreprocessed. rewrite P, H. unfold walkNodes.
      rewrite (walkEach_without_wrappers (parseCommand parse fuel)
                 (script_commands ast)); [reflexivity| |exact F].
      apply Forall_forall. intros node _. apply walkNode_without_wrappers. }
    split; [exact R|].
    intros T. rewrite R, T, (untainted_no_texts _ T). reflexivity.
Qed.

Lemma sample_idiom_WellFormed : WellFormed sample_idiom.
Proof.
  unfold WellFormed, Spaces, WordChars, OptQuote; cbn.
  repeat split; try discriminate; try (now left).
Qed.

Lemma cat_heredoc_rewritten_witness :
  Sample.in_gh = "gh pr create --body '" ++ idiomText sample_idiom ++ "'" /\
  preprocessCatHeredocs Sample.in_gh = Sample.in_gh_rewritten /\
  Sample.grammar Sample.in_gh_rewritten = Some Sample.t_gh /\
  parseCommand Sample.grammar 1 Sample.in_gh
  = Some (mkResult
            [ {| command := "gh";
                 args := ["pr"; "create"; "--body"; "__HEREDOC_TEXT__"];
                 envPrefixes := [];
                 raw := "gh pr create --body __HEREDOC_TEXT__" |} ]
            false [] false).
Proof.
  split; [reflexivity|]. split; [reflexivity|]. split; [reflexivity|].
  destruct (cat_heredoc_rewritten Sample.grammar 0 "gh pr create --body '"
              sample_idiom "'" sample_idiom_WellFormed
              (no_dollar_NoMatchWithin "gh pr create --body '"
                 (idiomText sample_idiom ++ "'") eq_refl))
    as (tail & _ & E & _ & R).
  rewrite <- E in R.
  exact (proj2 (R Sample.t_gh eq_refl eq_refl eq_refl) eq_refl).
Defined.

(** the worked input of the specification: the substitution leaves no
    taint and no substitution text *)
Example cat_heredoc_untainted :
  Sample.in_gh = "gh pr create --body '" ++ idiomText sample_idiom ++ "'" /\
  exists r, parseCommand Sample.grammar 1 Sample.in_gh = Some r /\
            hasSubshell r = false /\ subshellCommands r = [] /\
            parseError r = false.
Proof.
  split; [reflexivity|].
  eexists. split; [reflexivity|]. repeat split.
Qed.

(** occurrences are the matches of one scan from the left: an occurrence
    that starts inside an earlier match goes with it, and the scan is not
    run again on its own output *)
Example cat_heredoc_one_scan :
  let lf := Sample.nl in
  preprocessCatHeredocs
    ("$(cat <<A" ++ lf ++ "$(cat <<B" ++ lf ++ lf ++ "A)" ++ lf ++ "B)")
  = "__HEREDOC_TEXT__" ++ lf ++ "B)" /\
  preprocessCatHeredocs
    ("$(cat <<$(cat <<E" ++ lf ++ lf ++ "E)" ++ lf ++ "x" ++ lf
     ++ "__HEREDOC_TEXT__)")
  = "$(cat <<__HEREDOC_TEXT__" ++ lf ++ "x" ++ lf ++ "__HEREDOC_TEXT__)".
Proof. split; reflexivity. Qed.

(** ** A lone shell wrapper *)

(** X5 -- an input that the grammar reads as one [sh -c] command, without
    a heredoc redirect, gives the result of the script it wraps, with the
    substitution texts of the wrapper's own words in front and the taint
    they cause or-ed in; when the script is a parse error the result is the
    wrapper alone, as one invocation, and no parse error. *)
Theorem lone_wrapper_result parse fuel input name prefix suffix parsed inner :
  isBlank input = false ->
  parse (preprocessCatHeredocs input) = Some (Script [Command name prefix suffix]) ->
  astHasHeredoc (Script [Command name prefix suffix]) = false ->
  convertCommand name prefix suffix = Some parsed ->
  isShellWrapper parsed = true ->
  parseCommand parse fuel (nth 1 (args parsed) EmptyString) = Some inner ->
  let own := collectCommandExpansions (Command name prefix suffix) in
  parseCommand parse (S fuel) input =
  Some (if parseError inner
        then mkResult [parsed] (0 <? List.length own) own false
        else mkResult (commands inner)
                      ((0 <? List.length own) || hasSubshell inner)
                      (own ++ subshellCommands inner) false).
Proof.
  intros B P H C W I own. cbn [parseCommand]. rewrite B.
  unfold parsePreprocessed. rewrite P, H.
  unfold walkNodes. cbn [script_commands walkEach walkNode].
  rewrite C, W, I, pushExpansions_fields. fold own.
  destruct (parseError inner); cbn.
  - reflexivity.
  - destruct (hasSubshell inner); now rewrite ?orb_true_r, ?orb_false_r.
Qed.

Lemma lone_wrapper_result_witness :
  parseCommand Sample.grammar 2 Sample.in_sh_ls =
  Some (mkResult [ {| command := "ls"; args := ["-la"]; envPrefixes := [];
                      raw := "ls -la" |} ] false [] false).
Proof.
  apply (lone_wrapper_result Sample.grammar 1 Sample.in_sh_ls
           (Some (Sample.plain "sh")) []
           [Word (Sample.plain "-c"); Word (Sample.plain "ls -la")]
           {| command := "sh"; args := ["-c"; "ls -la"]; envPrefixes := [];
              raw := "sh -c ls -la" |}
           (mkResult [ {| command := "ls"; args := ["-la"]; envPrefixes := [];
                          raw := "ls -la" |} ] false [] false));
    reflexivity.
Defined.

(** ** Where [astHasHeredoc] looks *)

Lemma existsb_flat_map {A B : Type} (p : B -> bool) (f : A -> list B) l :
  List.existsb p (flat_map f l) = List.existsb (fun a => List.existsb p (f a)) l.
Proof.
  induction l as [|a l IH]; cbn; [reflexivity|].
  now rewrite existsb_app, IH.
Qed.

Lemma existsb_Forall_ext {A : Type} (p q : A -> bool) l :
  Forall (fun a => p a = q a) l -> List.existsb p l = List.existsb q l.
Proof. induction 1 as [|a l E _ IH]; cbn; [reflexivity|]. now rewrite E, IH. Qed.

Lemma check_allCommands node :
  check node = List.existsb heredocCommand (allCommands node).
Proof.
  induction node as
    [name prefix suffix IHp IHs | w | t | cmds IH | op l r IHl IHr
    | cmds IH | | t children IH] using AstNode_nested_ind;
    cbn [check allCommands List.existsb heredocCommand];
    rewrite ?existsb_app, ?existsb_flat_map;
    try reflexivity;
    try (apply existsb_Forall_ext; assumption).
  - rewrite (existsb_Forall_ext _ _ _ IHp), (existsb_Forall_ext _ _ _ IHs).
    now rewrite orb_assoc.
  - now rewrite IHl, IHr.
Qed.

(** X6 -- [astHasHeredoc] answers true exactly when some command node of
    the tree, at any depth below the script (in a pipeline, a logical
    expression, a subshell, a control-flow construct, or among the prefix
    and suffix children of another command), has a [dless] or [dlessdash]
    child in its suffix. *)
Theorem astHasHeredoc_finds_redirect ast :
  astHasHeredoc ast = true <->
  exists name prefix suffix,
    In (Command name prefix suffix) (flat_map allCommands (script_commands ast))
    /\ hasHeredocRedirect suffix = true.
Proof.
  unfold astHasHeredoc.
  rewrite (existsb_Forall_ext check
             (fun a => List.existsb heredocCommand (allCommands a)))
    by (apply Forall_forall; intros; apply check_allCommands).
  rewrite <- existsb_flat_map, existsb_exists. split.
  - intros [node [I H]]. destruct node; try discriminate.
    now exists name, prefix, suffix.
  - intros [name [prefix [suffix [I H]]]].
    exists (Command name prefix suffix). now split.
Qed.

(** ** What the preprocessing replaces *)

Lemma isLF_eq c : isLF c = true -> c = LF.
Proof.
  unfold isLF, code, LF. intros H. apply Nat.eqb_eq in H.
  rewrite <- H. now rewrite ascii_nat_embedding.
Qed.

Lemma takeWhile_holds p s : Str.forallb p (Str.takeWhile p s) = true.
Proof.
  induction s as [|c s IH]; cbn; [reflexivity|].
  destruct (p c) eqn:E; cbn; [now rewrite E | reflexivity].
Qed.

Lemma dropOpt_shape p s :
  exists opt,
    (opt = EmptyString \/ exists c, p c = true /\ opt = String c EmptyString)
    /\ s = opt ++ Str.dropOpt p s.
Proof.
  destruct s as [|c s]; cbn.
  - exists EmptyString. split; [now left | reflexivity].
  - destruct (p c) eqn:E.
    + exists (String c EmptyString). split; [right; now exists c | reflexivity].
    + exists EmptyString. split; [now left | reflexivity].
Qed.

Lemma findClose_shape m s r :
  Re.findClose m s = Some r ->
  exists b ws, Spaces ws /\ s = b ++ String LF (m ++ ws ++ ")" ++ r).
Proof.
  induction s as [|c s IH]; cbn [Re.findClose].
  - destruct (Re.closeAt m EmptyString) as [r'|] eqn:C; [|discriminate].
    intros H; injection H as ->.
    apply closeAt_shape in C as (ws & W & E). discriminate E.
  - destruct (Re.closeAt m (String c s)) as [r'|] eqn:C.
    + intros H; injection H as ->.
      apply closeAt_shape in C as (ws & W & E).
      exists EmptyString, ws. split; [exact W|]. rewrite E. reflexivity.
    + intros H. destruct (IH H) as (b & ws & W & E).
      exists (String c b), ws. split; [exact W|]. now rewrite E.
Qed.

Lemma catHeredocAt_shape s rest :
  Re.catHeredocAt s = Some rest ->
  exists p, WellFormed p /\ s = idiomText p ++ rest.
Proof.
  unfold Re.catHeredocAt.
  destruct (Str.stripPrefix "$(cat" s) as [r1|] eqn:E1; [|discriminate].
  apply stripPrefix_append in E1.
  destruct (Re.startsWith isSpace r1) eqn:S1; [|discriminate].
  unfold Re.heredocOperator.
  destruct (Str.stripPrefix "<<" (Str.dropWhile isSpace r1)) as [r|] eqn:E2;
    [|discriminate].
  apply stripPrefix_append in E2.
  destruct (dropOpt_shape Re.isDash r) as (d & Hd & Er).
  destruct (dropOpt_shape isQuote (Str.dropWhile isSpace (Str.dropOpt Re.isDash r)))
    as (qa & Hqa & Eqa).
  set (r2 := Str.dropOpt isQuote (Str.dropWhile isSpace (Str.dropOpt Re.isDash r)))
    in *.
  destruct (Str.isEmpty (Str.takeWhile isWordChar r2)) eqn:Em; [discriminate|].
  destruct (dropOpt_shape isQuote (Str.dropWhile isWordChar r2))
    as (qb & Hqb & Eqb).
  destruct (Str.dropOpt isQuote (Str.dropWhile isWordChar r2))
    as [|c bd] eqn:E3; [discriminate|].
  destruct (isLF c) eqn:L; [|discriminate].
  apply isLF_eq in L. subst c. intros F.
  apply findClose_shape in F as (b & w3 & W3 & Eb).
  exists {| ws1 := Str.takeWhile isSpace r1; dash := d;
            ws2 := Str.takeWhile isSpace (Str.dropOpt Re.isDash r);
            q1 := qa; marker := Str.takeWhile isWordChar r2; q2 := qb;
            body := b; ws3 := w3 |}.
  split.
  - unfold WellFormed, Spaces, WordChars, OptQuote, OptDash. cbn.
    repeat split; try apply takeWhile_holds; try assumption.
    + destruct r1 as [|x r1]; [discriminate|]. cbn in S1 |- *.
      rewrite S1. discriminate.
    + destruct Hd as [->|(x & X & ->)]; [now left|right].
      unfold Re.isDash in X. apply Ascii.eqb_eq in X. now subst x.
    + intros Z. rewrite Z in Em. discriminate.
  - unfold idiomText. cbn [ws1 dash ws2 q1 marker q2 body ws3].
    rewrite E1 at 1. rewrite !append_assoc. f_equal.
    rewrite <- (takeWhile_dropWhile isSpace r1) at 1. f_equal.
    rewrite E2. change ("<<" ++ r) with (String "<" (String "<" r)).
    cbn [append]. do 2 f_equal.
    rewrite Er at 1. f_equal.
    rewrite <- (takeWhile_dropWhile isSpace (Str.dropOpt Re.isDash r)) at 1.
    f_equal. rewrite Eqa at 1. fold r2. f_equal.
    rewrite <- (takeWhile_dropWhile isWordChar r2) at 1. f_equal.
    rewrite Eqb at 1. f_equal. rewrite Eb. f_equal.
    rewrite append_assoc. f_equal. cbn [append]. f_equal.
    now rewrite !append_assoc.
Qed.

(** X7 -- the preprocessing changes nothing but occurrences of the idiom:
    its result is the input in which some stretches
    [$(cat], spaces, [<<], an optional dash, spaces, an optional quote, a
    marker of word characters, an optional quote, a line feed, a body, a
    line feed, the same marker, spaces and [)]
    have been replaced by the placeholder; every other character is kept,
    in order. *)
Theorem preprocess_replaces_idioms_only input :
  Rewritten input (preprocessCatHeredocs input).
Proof.
  remember (String.length input) as n eqn:En.
  revert input En; induction n as [n IH] using lt_wf_ind; intros input En.
  rewrite preprocessCatHeredocs_step.
  destruct (Re.catHeredocAt input) as [rest|] eqn:E.
  - pose proof (catHeredocAt_length _ _ E) as L.
    apply catHeredocAt_shape in E as (p & WF & ->).
    apply Rewritten_idiom; [exact WF|].
    apply (IH (String.length rest)); [lia | reflexivity].
  - destruct input as [|c r]; [constructor|].
    apply Rewritten_keep. apply (IH (String.length r)); [cbn in En; lia | reflexivity].
Qed.

Lemma occurs_here lit s : occurs lit s = false -> Str.stripPrefix lit s = None.
Proof.
  destruct s as [|c s]; cbn [occurs];
    destruct (Str.stripPrefix lit _); [discriminate|reflexivity|discriminate|reflexivity].
Qed.

Lemma occurs_tail lit c s : occurs lit (String c s) = false -> occurs lit s = false.
Proof.
  cbn [occurs]. destruct (Str.stripPrefix lit (String c s)); [discriminate|].
  intros H; exact H.
Qed.

(** X8 -- an input that does not hold the text [$(cat] comes out of the
    preprocessing as it went in. *)
Theorem preprocess_without_cat_unchanged input :
  occurs "$(cat" input = false -> preprocessCatHeredocs input = input.
Proof.
  induction input as [|c r IH]; intros O; rewrite preprocessCatHeredocs_step.
  - reflexivity.
  - unfold Re.catHeredocAt. rewrite (occurs_here _ _ O).
    now rewrite (IH (occurs_tail _ _ _ O)).
Qed.

Lemma preprocess_without_cat_unchanged_witness :
  occurs "$(cat" Sample.in_echo_sub = false
  /\ preprocessCatHeredocs Sample.in_echo_sub = Sample.in_echo_sub.
Proof.
  split; [reflexivity|].
  apply (preprocess_without_cat_unchanged Sample.in_echo_sub). reflexivity.
Defined.

Lemma preprocessCatHeredocs_dollars s :
  dollars (preprocessCatHeredocs s) <= dollars s.
Proof.
  remember (String.length s) as n eqn:En.
  revert s En; induction n as [n IH] using lt_wf_ind; intros s En.
  rewrite preprocessCatHeredocs_step.
  destruct (Re.catHeredocAt s) as [rest|] eqn:E.
  - pose proof (catHeredocAt_length _ _ E) as L.
    apply catHeredocAt_Suffix in E as (s' & -> & S).
    specialize (IH (String.length rest) ltac:(lia) rest eq_refl).
    pose proof (Suffix_count _ isDollar _ _ S).
    unfold dollars in *. rewrite count_append. cbn in *. lia.
  - destruct s as [|c r]; [reflexivity|].
    specialize (IH (String.length r) ltac:(cbn in En; lia) r eq_refl).
    unfold dollars in *. cbn. lia.
Qed.

(** X9 -- the preprocessing adds no dollar sign, and its result is longer
    than the input by at most three characters for each dollar sign that it
    takes away (the shortest idiom has thirteen characters, the placeholder
    sixteen). *)
Theorem preprocess_growth_bounded input :
  dollars (preprocessCatHeredocs input) <= dollars input /\
  String.length (preprocessCatHeredocs input) + 3 * dollars (preprocessCatHeredocs input)
  <= String.length input + 3 * dollars input.
Proof.
  split; [apply preprocessCatHeredocs_dollars|].
  exact (preprocessCatHeredocs_weight input).
Qed.

(** ** The command name of an invocation *)

Lemma forallb_append p (a b : string) :
  Str.forallb p (a ++ b) = Str.forallb p a && Str.forallb p b.
Proof.
  induction a as [|x a IH]; cbn; [reflexivity|]. now rewrite IH, andb_assoc.
Qed.

Lemma forallb_rev p (s : string) : Str.forallb p (Str.rev s) = Str.forallb p s.
Proof.
  induction s as [|c s IH]; cbn; [reflexivity|].
  rewrite forallb_append, IH. cbn. rewrite andb_true_r. apply andb_comm.
Qed.

Lemma existsb_forallb_negb p (s : string) :
  Str.existsb p s = false -> Str.forallb (fun c => negb (p c)) s = true.
Proof.
  induction s as [|c s IH]; cbn; [reflexivity|].
  destruct (p c); [discriminate|]. exact IH.
Qed.

Lemma rev_empty s : Str.rev s = EmptyString -> s = EmptyString.
Proof.
  destruct s as [|c s]; [reflexivity|]. cbn.
  destruct (Str.rev s); discriminate.
Qed.

Lemma dropWhile_head p s c r : Str.dropWhile p s = String c r -> p c = false.
Proof.
  induction s as [|x s IH]; cbn; [discriminate|].
  destruct (p x) eqn:E; [exact IH|]. intros H; injection H as <- _. exact E.
Qed.

Lemma basename_empty path :
  basename path = EmptyString <-> Str.forallb isSlash path = true.
Proof.
  unfold basename. rewrite <- (forallb_rev isSlash path), forallb_dropWhile.
  destruct (Str.dropWhile isSlash (Str.rev path)) as [|c r] eqn:D; cbn.
  - split; reflexivity.
  - rewrite (dropWhile_head _ _ _ _ D). cbn. split; [|discriminate].
    intros H.
    destruct (Str.rev (Str.takeWhile (fun c => negb (isSlash c)) r));
      discriminate.
Qed.

Lemma no_slash_all_slashes s :
  Str.includesSlash s = false ->
  (s = EmptyString <-> Str.forallb isSlash s = true).
Proof.
  destruct s as [|c s]; cbn; [split; reflexivity|].
  destruct (isSlash c); [discriminate|]. cbn. split; discriminate.
Qed.

(** X10 -- the command of an invocation is the empty string exactly when
    the name word of the command node is empty or made of slashes only. *)
Theorem empty_command_from_slashes name prefix suffix c :
  convertCommand (Some name) prefix suffix = Some c ->
  (command c = EmptyString <-> Str.forallb isSlash (text name) = true).
Proof.
  unfold convertCommand. intros H; injection H as <-. cbn [command].
  destruct (Str.includesSlash (text name)) eqn:S.
  - apply basename_empty.
  - now apply no_slash_all_slashes.
Qed.

Lemma empty_command_from_slashes_witness :
  command {| command := EmptyString; args := ["x"]; envPrefixes := [];
             raw := "// x" |} = EmptyString
  <-> Str.forallb isSlash (text (Sample.plain "//")) = true.
Proof.
  apply (empty_command_from_slashes (Sample.plain "//") []
           [Word (Sample.plain "x")]).
  reflexivity.
Defined.

Lemma basename_component dir base trail :
  base <> EmptyString -> Str.includesSlash base = false ->
  Str.forallb isSlash trail = true ->
  basename (dir ++ "/" ++ base ++ trail) = base.
Proof.
  intros NE NS T. unfold basename.
  rewrite !rev_append. change (Str.rev "/") with "/".
  rewrite !append_assoc.
  assert (B : Str.forallb notSlash (Str.rev base) = true).
  { rewrite forallb_rev. now apply existsb_forallb_negb. }
  assert (NE' : Str.rev base <> EmptyString).
  { intros Z. apply rev_empty in Z. contradiction. }
  rewrite dropWhile_run.
  - change (fun c => negb (isSlash c)) with notSlash.
    rewrite takeWhile_run; [apply rev_involutive | exact B | reflexivity].
  - now rewrite forallb_rev.
  - apply startsWith_first with (q := notSlash); [|exact B|exact NE'].
    intros c. unfold notSlash. now destruct (isSlash c).
Qed.

(** X11 -- the directories in front of a command name, and slashes
    behind it, are not part of the command: a name word [dir/base], with or
    without trailing slashes, gives the same command, arguments and
    assignments as the bare word [base].  Only [raw] keeps the word as it
    was written. *)
Theorem path_of_command_ignored dir base trail exps exps' prefix suffix :
  base <> EmptyString -> Str.includesSlash base = false ->
  Str.forallb isSlash trail = true ->
  exists c c',
    convertCommand (Some {| text := dir ++ "/" ++ base ++ trail;
                            expansion := exps |}) prefix suffix = Some c /\
    convertCommand (Some {| text := base; expansion := exps' |}) prefix suffix
    = Some c' /\
    command c = base /\ command c' = base /\
    args c = args c' /\ envPrefixes c = envPrefixes c' /\
    raw c = Str.join " " (envPrefixes c ++ [dir ++ "/" ++ base ++ trail] ++ args c).
Proof.
  intros NE NS T. unfold convertCommand. cbn [text].
  eexists. eexists. split; [reflexivity|]. split; [reflexivity|].
  cbn [command args envPrefixes raw]. rewrite NS.
  assert (S : Str.includesSlash (dir ++ "/" ++ base ++ trail) = true).
  { unfold Str.includesSlash. rewrite !existsb_append. cbn.
    now rewrite orb_true_r. }
  rewrite S, (basename_component dir base trail NE NS T).
  repeat split.
Qed.

Lemma path_of_command_ignored_witness :
  exists c c',
    convertCommand (Some {| text := "/usr/bin" ++ "/" ++ "ls" ++ "/";
                            expansion := None |}) [] [Word (Sample.plain "-la")]
    = Some c /\
    convertCommand (Some {| text := "ls"; expansion := None |}) []
                   [Word (Sample.plain "-la")]
    = Some c' /\
    command c = "ls" /\ command c' = "ls" /\
    args c = args c' /\ envPrefixes c = envPrefixes c' /\
    raw c = Str.join " " (envPrefixes c ++ ["/usr/bin" ++ "/" ++ "ls" ++ "/"]
                          ++ args c).
Proof.
  apply (path_of_command_ignored "/usr/bin" "ls" "/" None None []
           [Word (Sample.plain "-la")]).
  - discriminate.
  - reflexivity.
  - reflexivity.
Defined.

(** ** The command part of a heredoc line *)

Lemma dropOpt_append p s b :
  s <> EmptyString -> Str.dropOpt p (s ++ b) = Str.dropOpt p s ++ b.
Proof.
  destruct s as [|c s]; [contradiction|]. intros _. cbn.
  now destruct (p c).
Qed.

Lemma dropWhile_append p s b :
  Str.dropWhile p s <> EmptyString ->
  Str.dropWhile p (s ++ b) = Str.dropWhile p s ++ b.
Proof.
  induction s as [|c s IH]; cbn; [contradiction|].
  destruct (p c); [exact IH | reflexivity].
Qed.

Lemma dropOpt_nonempty p s : Str.dropOpt p s <> EmptyString -> s <> EmptyString.
Proof. destruct s; [contradiction | discriminate]. Qed.

Lemma dropWhile_nonempty p s : Str.dropWhile p s <> EmptyString -> s <> EmptyString.
Proof. destruct s; [contradiction | discriminate]. Qed.

Lemma startsWith_nonempty p s : Re.startsWith p s = true -> s <> EmptyString.
Proof. destruct s; [discriminate | discriminate]. Qed.

Lemma startsWith_append p s b :
  Re.startsWith p s = true -> Re.startsWith p (s ++ b) = true.
Proof. destruct s; [discriminate | trivial]. Qed.

(** a match of [HEREDOC_REGEX] at the head of a text is one at the head of
    every text that goes on after it *)
Lemma heredocAt_append a b :
  Re.heredocAt a = true -> Re.heredocAt (a ++ b) = true.
Proof.
  unfold Re.heredocAt, Re.heredocOperator.
  destruct (Str.stripPrefix "<<" a) as [r0|] eqn:E; [|discriminate].
  apply stripPrefix_append in E. subst a.
  rewrite append_assoc, stripPrefix_here. intros S.
  pose proof (startsWith_nonempty _ _ S) as N3.
  pose proof (dropOpt_nonempty _ _ N3) as N2.
  pose proof (dropWhile_nonempty _ _ N2) as N1.
  pose proof (dropOpt_nonempty _ _ N1) as N0.
  rewrite (dropOpt_append _ _ b N0), (dropWhile_append _ _ b N2),
    (dropOpt_append _ _ b N2).
  now apply startsWith_append.
Qed.

Lemma HEREDOC_REGEX_test_append a b :
  Re.HEREDOC_REGEX_test a = true -> Re.HEREDOC_REGEX_test (a ++ b) = true.
Proof.
  induction a as [|c a IH]; cbn [Re.HEREDOC_REGEX_test append].
  - rewrite orb_false_r. discriminate.
  - intros H. apply orb_prop in H as [H|H].
    + change (String c (a ++ b)) with (String c a ++ b).
      now rewrite (heredocAt_append _ b H).
    + rewrite (IH H). apply orb_true_r.
Qed.

Lemma HEREDOC_REGEX_test_dropWhile p s :
  Re.HEREDOC_REGEX_test s = false ->
  Re.HEREDOC_REGEX_test (Str.dropWhile p s) = false.
Proof.
  induction s as [|c s IH]; intros H; [exact H|].
  cbn [Str.dropWhile]. destruct (p c); [|exact H].
  apply IH. cbn [Re.HEREDOC_REGEX_test] in H.
  now apply orb_false_elim in H as [_ H].
Qed.

Lemma trimEnd_prefix s : exists tail, s = Str.trimEnd s ++ tail.
Proof.
  induction s as [|c s (tail & IH)]; [now exists EmptyString|].
  cbn [Str.trimEnd].
  destruct (Str.isEmpty (Str.trimEnd s) && isSpace c).
  - now exists (String c s).
  - exists tail. cbn. now rewrite <- IH.
Qed.

Lemma stripHeredocSuffix_prefix s :
  exists tail, s = Re.stripHeredocSuffix s ++ tail.
Proof.
  induction s as [|c s (tail & IH)]; cbn [Re.stripHeredocSuffix].
  - destruct (Re.heredocSuffixAt EmptyString); now exists EmptyString.
  - destruct (Re.heredocSuffixAt (String c s)).
    + now exists (String c s).
    + exists tail. cbn. now rewrite <- IH.
Qed.

Lemma HEREDOC_REGEX_test_prefix a b :
  Re.HEREDOC_REGEX_test (a ++ b) = false -> Re.HEREDOC_REGEX_test a = false.
Proof.
  intros H. destruct (Re.HEREDOC_REGEX_test a) eqn:E; [|reflexivity].
  now rewrite (HEREDOC_REGEX_test_append a b E) in H.
Qed.

Lemma heredocOperator_existsb p s r :
  Re.heredocOperator s = Some r ->
  Str.existsb p s = false -> Str.existsb p r = false.
Proof.
  unfold Re.heredocOperator.
  destruct (Str.stripPrefix "<<" s) as [r0|] eqn:E; [|discriminate].
  apply stripPrefix_append in E. subst s. intros H; injection H as <-.
  rewrite existsb_append. intros X. apply orb_false_elim in X as [_ X].
  assert (O : forall q t, Str.existsb p t = false ->
                          Str.existsb p (Str.dropOpt q t) = false).
  { intros q [|c t]; cbn; [trivial|]. intros Y.
    apply orb_false_elim in Y as [Yc Yt]. destruct (q c); [exact Yt|].
    cbn. now rewrite Yc, Yt. }
  assert (W : forall q t, Str.existsb p t = false ->
                          Str.existsb p (Str.dropWhile q t) = false).
  { intros q t. induction t as [|c t IH]; cbn; [trivial|]. intros Y.
    apply orb_false_elim in Y as [Yc Yt]. destruct (q c); [now apply IH|].
    cbn. now rewrite Yc, Yt. }
  now apply O, W, O.
Qed.

(** without a line terminator in the text, the expression of the
    replacement matches where [HEREDOC_REGEX] does *)
Lemma heredocSuffixAt_heredocAt s :
  Str.existsb isLineTerminator s = false ->
  Re.heredocSuffixAt s = Re.heredocAt s.
Proof.
  intros X. unfold Re.heredocSuffixAt, Re.heredocAt.
  destruct (Re.heredocOperator s) as [r|] eqn:E; [|reflexivity].
  rewrite (heredocOperator_existsb _ _ _ E X). cbn. apply andb_true_r.
Qed.

Lemma stripHeredocSuffix_no_operator s :
  Str.existsb isLineTerminator s = false ->
  Re.HEREDOC_REGEX_test (Re.stripHeredocSuffix s) = false.
Proof.
  induction s as [|c s IH]; intros X; cbn [Re.stripHeredocSuffix].
  - destruct (Re.heredocSuffixAt EmptyString); reflexivity.
  - destruct (Re.heredocSuffixAt (String c s)) eqn:A; [reflexivity|].
    rewrite (heredocSuffixAt_heredocAt _ X) in A.
    cbn [Str.existsb] in X. apply orb_false_elim in X as [_ X].
    cbn [Re.HEREDOC_REGEX_test]. rewrite (IH X), orb_false_r.
    destruct (stripHeredocSuffix_prefix s) as (tail & Es).
    destruct (Re.heredocAt (String c (Re.stripHeredocSuffix s))) eqn:B;
      [|reflexivity].
    apply (heredocAt_append _ tail) in B. cbn [append] in B.
    rewrite <- Es in B. congruence.
Qed.

(** X12 -- when the first line of the text holds no carriage return, the
    command part that the heredoc fallbacks cut out of it (the line up to
    its first heredoc operator, trimmed) holds no heredoc operator any
    more. *)
Theorem heredocCmdPart_holds_no_operator input :
  Str.existsb isLineTerminator (Str.firstLine input) = false ->
  Re.HEREDOC_REGEX_test (heredocCmdPart input) = false.
Proof.
  intros X. unfold heredocCmdPart, Str.trim, Str.trimStart.
  pose proof (stripHeredocSuffix_no_operator _ X) as H.
  apply (HEREDOC_REGEX_test_dropWhile isSpace) in H.
  destruct (trimEnd_prefix
              (Str.dropWhile isSpace (Re.stripHeredocSuffix (Str.firstLine input))))
    as (tail & E).
  rewrite E in H. now apply HEREDOC_REGEX_test_prefix in H.
Qed.

Lemma heredocCmdPart_holds_no_operator_witness :
  Str.existsb isLineTerminator (Str.firstLine Sample.in_heredoc) = false
  /\ Re.HEREDOC_REGEX_test (heredocCmdPart Sample.in_heredoc) = false.
Proof.
  split; [reflexivity|].
  apply (heredocCmdPart_holds_no_operator Sample.in_heredoc). reflexivity.
Defined.

(** ** Where a parse error comes from *)

(** X13 -- a result that reports a parse error carries no invocation and
    no substitution text, and it comes from the outer text only: the
    grammar refused the preprocessed input, or read a tree with a heredoc
    redirect in it.  A parse error of a script wrapped in [sh -c] never
    makes the result of the wrapping text a parse error. *)
Theorem parse_error_is_outer parse fuel input r :
  parseCommand parse fuel input = Some r ->
  parseError r = true ->
  commands r = [] /\ subshellCommands r = [] /\
  (parse (preprocessCatHeredocs input) = None
   \/ exists ast, parse (preprocessCatHeredocs input) = Some ast
                  /\ astHasHeredoc ast = true).
Proof.
  destruct fuel as [|fuel]; [discriminate|]. cbn [parseCommand].
  destruct (isBlank input).
  { intros H; injection H as <-. discriminate. }
  unfold parsePreprocessed.
  destruct (parse (preprocessCatHeredocs input)) as [ast|].
  - destruct (astHasHeredoc ast) eqn:A.
    + destruct (Str.isEmpty (heredocCmdPart (preprocessCatHeredocs input))).
      * intros H; injection H as <-. intros _.
        repeat split. right. now exists ast.
      * destruct (parse (heredocCmdPart (preprocessCatHeredocs input))).
        -- destruct (walkNodes _ _ _); [|discriminate].
           intros H; injection H as <-. discriminate.
        -- intros H; injection H as <-. intros _.
           repeat split. right. now exists ast.
    + destruct (walkNodes _ _ _); [|discriminate].
      intros H; injection H as <-. discriminate.
  - intros H E. split; [|split; [|now left]].
    + destruct (Re.HEREDOC_REGEX_test _);
        [destruct (Str.isEmpty _);
         [|destruct (parse _); [destruct (walkNodes _ _ _)|]]|];
        try discriminate; injection H as <-; try reflexivity; discriminate.
    + destruct (Re.HEREDOC_REGEX_test _);
        [destruct (Str.isEmpty _);
         [|destruct (parse _); [destruct (walkNodes _ _ _)|]]|];
        try discriminate; injection H as <-; try reflexivity; discriminate.
Qed.

Lemma parse_error_is_outer_witness :
  commands (mkResult [] false [] true) = [] /\
  subshellCommands (mkResult [] false [] true) = [] /\
  (Sample.grammar (preprocessCatHeredocs "echo (") = None
   \/ exists ast, Sample.grammar (preprocessCatHeredocs "echo (") = Some ast
                  /\ astHasHeredoc ast = true).
Proof.
  apply (parse_error_is_outer Sample.grammar 1 "echo (" (mkResult [] false [] true));
    reflexivity.
Defined.

(** ** The patterns built by [anyArgMatchesPattern] *)

Lemma passLit_whole lit prev s :
  match Rx.passLit lit prev s with
  | Some (_, rest) => Str.isEmpty rest
  | None => false
  end = String.eqb lit s.
Proof.
  revert prev s. induction lit as [|a lit IH]; intros prev [|b s]; cbn;
    try reflexivity.
  destruct (Ascii.eqb a b); [apply IH | reflexivity].
Qed.

Lemma run_alt_literals items s :
  items <> [] ->
  Rx.run (Rx.alt (map Rx.Lit items)) None s (fun _ rest => Str.isEmpty rest)
  = List.existsb (fun item => String.eqb item s) items.
Proof.
  induction items as [|i rest IH]; [contradiction|]. intros _.
  destruct rest as [|j rest].
  - cbn [map Rx.alt Rx.run List.existsb]. rewrite orb_false_r.
    rewrite <- passLit_whole with (prev := None).
    now destruct (Rx.passLit i None s) as [[p r]|].
  - change (Rx.alt (map Rx.Lit (i :: j :: rest)))
      with (Rx.Alt (Rx.Lit i) (Rx.alt (map Rx.Lit (j :: rest)))).
    cbn [Rx.run]. rewrite IH by discriminate.
    cbn [List.existsb]. f_equal.
    rewrite <- passLit_whole with (prev := None).
    now destruct (Rx.passLit i None s) as [[p r]|].
Qed.

Lemma anchored_not_later r c s : Rx.searchFrom (Rx.Seq Rx.Bol r) (Some c) s = false.
Proof.
  revert c. induction s as [|x s IH]; intros c; cbn; [reflexivity|apply IH].
Qed.

(** X14 -- the pattern that [anyArgMatchesPattern] builds from a list of
    plain items is anchored at both ends: it is found in a text exactly
    when the text is one of the items, and so never in a longer text that
    only holds, begins or ends with an item.  The items are joined into
    the expression as they are; the syntax tree reads them as literal
    text, which is what the expression does when they are plain. *)
Theorem anyArgMatchesPattern_exact items arg :
  items <> [] ->
  Forall (fun item => isPlainItem item = true) items ->
  (Rx.search (Defaults.anyArgMatchesPattern items) arg = true <-> In arg items).
Proof.
  intros NE _. unfold Defaults.anyArgMatchesPattern, Rx.oneOfWords, Rx.search.
  change (Rx.seq [Rx.Bol; Rx.alt (map Rx.Lit items); Rx.Eol])
    with (Rx.Seq Rx.Bol (Rx.Seq (Rx.alt (map Rx.Lit items)) Rx.Eol)).
  assert (E : Rx.searchFrom
                (Rx.Seq Rx.Bol (Rx.Seq (Rx.alt (map Rx.Lit items)) Rx.Eol))
                None arg
              = Rx.run (Rx.alt (map Rx.Lit items)) None arg
                       (fun _ rest => Str.isEmpty rest)).
  { assert (M : Rx.matchesAt
                  (Rx.Seq Rx.Bol (Rx.Seq (Rx.alt (map Rx.Lit items)) Rx.Eol))
                  None arg
                = Rx.run (Rx.alt (map Rx.Lit items)) None arg
                         (fun _ rest => Str.isEmpty rest)).
    { unfold Rx.matchesAt. cbn [Rx.run]. f_equal. }
    destruct arg as [|c s]; cbn [Rx.searchFrom]; rewrite M.
    - apply orb_false_r.
    - rewrite anchored_not_later. apply orb_false_r. }
  rewrite E, (run_alt_literals items arg NE), existsb_exists. split.
  - intros (i & I & Q). apply String.eqb_eq in Q. now subst.
  - intros I. exists arg. split; [exact I | apply String.eqb_refl].
Qed.

Lemma anyArgMatchesPattern_exact_witness :
  (Rx.search (Defaults.anyArgMatchesPattern Defaults.SCRIPT_RUNNERS) "tsx" = true
   <-> In "tsx" Defaults.SCRIPT_RUNNERS)
  /\ Rx.search (Defaults.anyArgMatchesPattern Defaults.SCRIPT_RUNNERS) "tsx2" = false.
Proof.
  split; [|reflexivity].
  apply (anyArgMatchesPattern_exact Defaults.SCRIPT_RUNNERS "tsx").
  - discriminate.
  - repeat constructor.
Defined.

(** ** What the walk does not look at *)

Lemma flat_map_words {B : Type} (f : WordNode -> list B) suffix :
  flat_map (fun s => match s with Word w => f w | _ => [] end)
           (filter isWordNode suffix)
  = flat_map (fun s => match s with Word w => f w | _ => [] end) suffix.
Proof.
  induction suffix as [|s suffix IH]; [reflexivity|].
  destruct s; cbn; rewrite ?IH; reflexivity.
Qed.

(** X15 -- of the suffix of a command node the walk looks at the [Word]
    children only: with every other child (a redirection, its target
    file, a heredoc operator) taken out of the suffix, the walk of the
    node gives the same accumulator, invocation and [raw] included. *)
Theorem walk_skips_redirections reenter name prefix suffix result :
  walkNode reenter (Command name prefix suffix) result
  = walkNode reenter (Command name prefix (filter isWordNode suffix)) result.
Proof.
  cbn [walkNode collectCommandExpansions]. unfold convertCommand, wordTexts.
  now rewrite !flat_map_words.
Qed.

(** X16 -- the assignments in front of a command play no part in what the
    walk decides: two command nodes that differ in their prefix only go
    the same way through the unwrap, and leave the same taint and the same
    substitution texts; the invocations they push are equally many. *)
Theorem walk_ignores_assignments reenter name prefix prefix' suffix result :
  match walkNode reenter (Command name prefix suffix) result,
        walkNode reenter (Command name prefix' suffix) result with
  | Some r, Some r' =>
      wr_hasSubshell r = wr_hasSubshell r' /\
      wr_subshellCommands r = wr_subshellCommands r' /\
      List.length (wr_commands r) = List.length (wr_commands r')
  | None, None => True
  | _, _ => False
  end.
Proof.
  cbn [walkNode collectCommandExpansions]. unfold convertCommand.
  destruct name as [n|]; [|repeat split].
  unfold isShellWrapper. cbn [command args].
  destruct (isShell _ && _ && _).
  - destruct (reenter _) as [inner|]; [|exact I].
    destruct (parseError inner); cbn; rewrite ?length_app; repeat split.
  - cbn. rewrite !length_app. repeat split.
Qed.

(** ** The walk is flat *)

Lemma taintIf_orb a b result :
  taintIf b (taintIf a result) = taintIf (a || b) result.
Proof. now destruct a, b. Qed.

Lemma pushExpansions_taint es result :
  pushExpansions es (taint result) = taint (pushExpansions es result).
Proof. rewrite !pushExpansions_fields. reflexivity. Qed.

Lemma pushInner_taint inner result :
  pushInner inner (taint result) = taint (pushInner inner result).
Proof. unfold pushInner, taint. cbn. now destruct (hasSubshell inner). Qed.

Lemma walkEach_taint reenter nodes :
  Forall (fun node => forall result,
            walkNode reenter node (taint result)
            = option_map taint (walkNode reenter node result)) nodes ->
  forall result,
    walkEach (walkNode reenter) nodes (taint result)
    = option_map taint (walkEach (walkNode reenter) nodes result).
Proof.
  induction 1 as [|node rest Hn _ IH]; intros result; cbn; [reflexivity|].
  rewrite Hn. destruct (walkNode reenter node result) as [r|]; cbn;
    [apply IH | reflexivity].
Qed.

(** tainting before the walk or after it comes to the same *)
Lemma walkNode_taint reenter node :
  forall result,
    walkNode reenter node (taint result)
    = option_map taint (walkNode reenter node result).
Proof.
  induction node as
    [name prefix suffix _ _ | w | t | cmds IH | op l r IHl IHr
    | cmds IH | | t children _] using AstNode_nested_ind;
    intros result; cbn [walkNode]; try reflexivity.
  - rewrite pushExpansions_taint.
    destruct (convertCommand name prefix suffix) as [parsed|]; [|reflexivity].
    destruct (isShellWrapper parsed); [|reflexivity].
    destruct (reenter _) as [inner|]; [|reflexivity].
    destruct (parseError inner); cbn; [reflexivity|].
    now rewrite pushInner_taint.
  - now apply walkEach_taint.
  - rewrite IHl. destruct (walkNode reenter l result); cbn;
      [apply IHr | reflexivity].
  - now apply walkEach_taint.
  - now destruct (isComplexType t).
Qed.

Lemma walkEach_taintIf reenter b nodes result :
  walkEach (walkNode reenter) nodes (taintIf b result)
  = option_map (taintIf b) (walkEach (walkNode reenter) nodes result).
Proof.
  destruct b; cbn [taintIf].
  - apply walkEach_taint. apply Forall_forall. intros n _. apply walkNode_taint.
  - now destruct (walkEach _ _ _).
Qed.

Lemma walkEach_app walk (a b : list AstNode) result :
  walkEach walk (a ++ b) result =
  match walkEach walk a result with
  | Some result' => walkEach walk b result'
  | None => None
  end.
Proof.
  revert result. induction a as [|n a IH]; intros result; cbn; [reflexivity|].
  destruct (walk n result); [apply IH | reflexivity].
Qed.

Lemma walkEach_flat reenter nodes :
  Forall (fun node => forall result,
            walkNode reenter node result
            = walkEach (walkNode reenter) (walkedCommands node)
                       (taintIf (structural node) result)) nodes ->
  forall result,
    walkEach (walkNode reenter) nodes result
    = walkEach (walkNode reenter) (flat_map walkedCommands nodes)
               (taintIf (List.existsb structural nodes) result).
Proof.
  induction 1 as [|node rest Hn _ IH]; intros result;
    cbn [walkEach flat_map List.existsb]; [reflexivity|].
  rewrite walkEach_app, <- taintIf_orb, Hn.
  rewrite (walkEach_taintIf reenter (List.existsb structural rest)).
  destruct (walkEach (walkNode reenter) (walkedCommands node)
                     (taintIf (structural node) result)) as [r1|];
    cbn [option_map]; [|reflexivity].
  apply IH.
Qed.

(** X17 -- the walk is flat: what it makes of a tree depends only on the
    list of command nodes it reaches, in order, and on whether the tree
    shows a subshell or a control-flow construct on the way.  Walking the
    tree is walking that list, after tainting the accumulator in the second
    case; whether commands are joined by a pipe, by [&&] or by [||], or
    grouped in a subshell, makes no other difference. *)
Theorem walk_is_flat reenter node result :
  walkNode reenter node result
  = walkEach (walkNode reenter) (walkedCommands node)
             (taintIf (structural node) result).
Proof.
  revert result.
  induction node as
    [name prefix suffix _ _ | w | t | cmds IH | op l r IHl IHr
    | cmds IH | | t children _] using AstNode_nested_ind;
    intros result; cbn [walkedCommands structural taintIf].
  - cbn [walkEach]. now destruct (walkNode _ _ _).
  - reflexivity.
  - reflexivity.
  - cbn [walkNode]. now apply walkEach_flat.
  - cbn [walkNode]. rewrite walkEach_app, <- taintIf_orb, IHl.
    rewrite (walkEach_taintIf reenter (structural r)).
    destruct (walkEach (walkNode reenter) (walkedCommands l)
                       (taintIf (structural l) result)) as [r1|];
      cbn [option_map]; [|reflexivity].
    apply IHr.
  - cbn [walkNode]. rewrite (walkEach_flat reenter cmds IH).
    rewrite (walkEach_taintIf reenter (List.existsb structural cmds)).
    rewrite walkEach_taint
      by (apply Forall_forall; intros n _; apply walkNode_taint).
    destruct (walkEach _ _ result) as [r1|]; cbn [option_map]; [|reflexivity].
    f_equal. now destruct (List.existsb structural cmds).
  - reflexivity.
  - cbn [walkNode walkEach]. now destruct (isComplexType t).
Qed.
